(** * An indexed binary min-heap for Dijkstra's algorithm: pqueue.cpp

    A shallow embedding of class [PQueue] (pqueue.h, pqueue.cpp) and the
    properties stated about it.

    Modelling conventions.
    - [int] values are unbounded integers ([Z]); index arithmetic such as
      [position * 2 + 2] stays below [2^31] for every capacity up to [2^30].
      Integer division is C++ division, which truncates toward zero
      ([Z.quot]), so the parent of slot 0 is slot 0.
    - [double] distances are only ever compared, never computed with.  They
      are an abstract type carrying the three comparisons the code uses and
      the constant [-1.0]; [a > b] is [b < a] and [a >= b] is [b <= a], as in
      IEEE 754.  The only law assumed is that [<] is irreflexive, which also
      holds for NaN.  The integers are an instance, used for the concrete
      runs.
    - The two heap-allocated arrays are lists whose length is the allocation
      size.  A read or write outside the allocation is undefined behaviour
      and is reported as the outcome [UB], naming the array and the index.
    - A C++ exception is the outcome [Throw], carrying the queue as it is at
      the moment of the throw.
    - The recursive procedures [shiftUp] and [shiftDown] are defined with a
      recursion budget; running out of it is the outcome [OutOfFuel], which
      is proved never to occur. *)

From stdpp Require Import base list strings.
From Stdlib Require Import ZArith Lia.

Open Scope Z_scope.

(** ** Distances *)

Class Distance (dist : Type) := {
  dlt : dist → dist → bool;          (* a < b  *)
  dle : dist → dist → bool;          (* a <= b *)
  deq : dist → dist → bool;          (* a == b *)
  minus_one : dist;                  (* -1.0   *)
  dlt_irrefl : ∀ a, dlt a a = false
}.

Definition dgt `{Distance dist} (a b : dist) : bool := dlt b a.
Definition dge `{Distance dist} (a b : dist) : bool := dle b a.
Definition dne `{Distance dist} (a b : dist) : bool := negb (deq a b).

#[global] Instance Z_Distance : Distance Z := {|
  dlt := Z.ltb; dle := Z.leb; deq := Z.eqb; minus_one := -1;
  dlt_irrefl := Z.ltb_irrefl
|}.

(** Distances that compare as a total order does, which excludes NaN. *)
Class OrderedDistance (dist : Type) `{Distance dist} : Prop := {
  dlt_dle : ∀ a b, dlt a b = true → dle a b = true;
  dle_trans : ∀ a b c, dle a b = true → dle b c = true → dle a c = true;
  dle_total : ∀ a b, dle a b = false → dlt b a = true;
  dlt_not_dle : ∀ a b, dlt a b = true → dle b a = false;
  deq_not_dlt : ∀ a b, deq a b = true → dlt b a = false
}.

#[global] Instance Z_OrderedDistance : OrderedDistance Z.
Proof.
  split; simpl.
  - intros a b ?%Z.ltb_lt. apply Z.leb_le. lia.
  - intros a b c ?%Z.leb_le ?%Z.leb_le. apply Z.leb_le. lia.
  - intros a b ?%Z.leb_gt. apply Z.ltb_lt. lia.
  - intros a b ?%Z.ltb_lt. apply Z.leb_gt. lia.
  - intros a b ?%Z.eqb_eq. apply Z.ltb_ge. lia.
Qed.

(** ** Outcomes of a call *)

Inductive exn :=
| logic_error (what : string)
| bad_array_new_length.

Inductive outcome (St A : Type) :=
| Ok (a : A) (s : St)
| Throw (e : exn) (s : St)
| UB (array : string) (index : Z)
| OutOfFuel.
Arguments Ok {St A} a s.
Arguments Throw {St A} e s.
Arguments UB {St A} array index.
Arguments OutOfFuel {St A}.

(** Arrays indexed by [int]. *)
Definition rd {A} (l : list A) (i : Z) : option A :=
  if i <? 0 then None else l !! Z.to_nat i.

Definition wr {A} (l : list A) (i : Z) (x : A) : option (list A) :=
  if (0 <=? i) && (i <? Z.of_nat (length l))
  then Some (<[Z.to_nat i := x]> l) else None.

Section PQueue.
Context {dist : Type} `{Distance dist}.

(** ** Data: pqueue.h *)

Record Elem := mkElem { V : Z; D : dist }.

(** [Elem()], the default constructor. *)
Definition Elem_default : Elem := {| V := -1; D := minus_one |}.

Record PQueue := mkPQueue {
  Positions : list Z;
  Queue : list Elem;
  NumElements : Z;
  Capacity : Z
}.

(** ** The monad of member functions *)

Definition M (A : Type) : Type := PQueue → outcome PQueue A.

Definition ret {A} (a : A) : M A := λ s, Ok a s.

Definition bind {A B} (m : M A) (k : A → M B) : M B := λ s,
  match m s with
  | Ok a s' => k a s'
  | Throw e s' => Throw e s'
  | UB a i => UB a i
  | OutOfFuel => OutOfFuel
  end.

Definition throw {A} (e : exn) : M A := λ s, Throw e s.

Notation "'let*' x ':=' m 'in' k" := (bind m (λ x, k))
  (at level 10, x name, m at level 100, k at level 200).
Notation "m '>>' k" := (bind m (λ _, k))
  (at level 100, k at level 200, right associativity).

Definition getQ (i : Z) : M Elem := λ s,
  match rd (Queue s) i with Some e => Ok e s | None => UB "Queue" i end.

Definition setQ (i : Z) (e : Elem) : M unit := λ s,
  match wr (Queue s) i e with
  | Some q => Ok () (mkPQueue (Positions s) q (NumElements s) (Capacity s))
  | None => UB "Queue" i
  end.

(** [Queue[i].V = v] and [Queue[i].D = d]. *)
Definition setV (i v : Z) : M unit :=
  let* e := getQ i in setQ i {| V := v; D := D e |}.
Definition setD (i : Z) (d : dist) : M unit :=
  let* e := getQ i in setQ i {| V := V e; D := d |}.

Definition getP (v : Z) : M Z := λ s,
  match rd (Positions s) v with Some p => Ok p s | None => UB "Positions" v end.

Definition setP (v p : Z) : M unit := λ s,
  match wr (Positions s) v p with
  | Some ps => Ok () (mkPQueue ps (Queue s) (NumElements s) (Capacity s))
  | None => UB "Positions" v
  end.

Definition getNum : M Z := λ s, Ok (NumElements s) s.
Definition setNum (n : Z) : M unit := λ s,
  Ok () (mkPQueue (Positions s) (Queue s) n (Capacity s)).
Definition getCap : M Z := λ s, Ok (Capacity s) s.

(** ** Constructor *)

(** [new T[N]] with a negative [N] throws [std::bad_array_new_length]
    before anything is allocated; otherwise [Queue] holds [N]
    default-constructed elements and the loop sets the [N] positions to -1. *)
Definition PQueue_new (N : Z) : exn + PQueue :=
  if N <? 0 then inl bad_array_new_length
  else inr {| Positions := replicate (Z.to_nat N) (-1);
              Queue := replicate (Z.to_nat N) Elem_default;
              NumElements := 0;
              Capacity := N |}.

(** ** Index helpers *)

Definition getLeftChildIndex (position : Z) : Z := position * 2 + 1.
Definition getRightChildIndex (position : Z) : Z := position * 2 + 2.
Definition getParentIndex (position : Z) : Z := Z.quot (position - 1) 2.

(** ** Empty *)

Definition Empty : M bool :=
  let* n := getNum in ret (n =? 0).

(** ** Fill *)

(** The body of the [for] loop, run [n] more times from vertex [v]. *)
Fixpoint Fill_loop (n : nat) (v : Z) (distance : dist) : M unit :=
  match n with
  | O => ret ()
  | S n' =>
      setV v v >>
      setD v distance >>
      setP v v >>
      Fill_loop n' (v + 1) distance
  end.

Definition Fill (distance : dist) : M unit :=
  let* cap := getCap in
  Fill_loop (Z.to_nat cap) 0 distance >>
  let* cap' := getCap in
  setNum cap'.

(** ** getSmallerChild *)

Definition getSmallerChild (position : Z) : M Z :=
  let leftIndex := position * 2 + 1 in
  let rightIndex := position * 2 + 2 in
  let* l := getQ leftIndex in
  let* r := getQ rightIndex in
  if deq (D l) (D r) then ret rightIndex
  else
    let* l := getQ leftIndex in
    let* r := getQ rightIndex in
    if dgt (D l) (D r) then ret leftIndex else ret rightIndex.

(** ** inCorrectSpotwithRespectToParent *)

Definition inCorrectSpotwithRespectToParent (position : Z) : M bool :=
  if negb (position =? 0) then
    let* e := getQ position in
    let* p := getQ (Z.quot (position - 1) 2) in
    if dle (D e) (D p) then ret false else ret true
  else ret true.

(** ** inCorrectSpotwithRespectToChild *)

(** The [||] evaluates its right operand only when the left one is false. *)
Definition inCorrectSpotwithRespectToChild (position : Z) : M bool :=
  let* l := getQ (position * 2 + 1) in
  let* hasChild :=
    (if dne (D l) minus_one then ret true
     else let* r := getQ (position * 2 + 2) in ret (dne (D r) minus_one)) in
  if hasChild then
    let* e := getQ position in
    let* c := getSmallerChild position in
    let* ce := getQ c in
    if dle (D e) (D ce) then ret false else ret true
  else ret true.

(** ** shiftUp *)

Fixpoint shiftUp_rec (fuel : nat) (position : Z) : M unit :=
  match fuel with
  | O => λ _, OutOfFuel
  | S fuel' =>
      let parentIndex := getParentIndex position in
      let* e := getQ position in
      let* p := getQ parentIndex in
      if dge (D e) (D p) then ret ()
      else
        let* e := getQ position in
        let* p := getQ parentIndex in
        if dlt (D e) (D p) then
          let* temp := getQ parentIndex in
          let* e := getQ position in
          setQ parentIndex e >>
          let* e' := getQ parentIndex in
          setP (V e') parentIndex >>
          setQ position temp >>
          let* t' := getQ position in
          setP (V t') position >>
          shiftUp_rec fuel' parentIndex
        else ret ()
  end.

(** The slot index strictly decreases along the recursion. *)
Definition shiftUp (position : Z) : M unit :=
  shiftUp_rec (S (Z.to_nat position)) position.

(** ** shiftDown *)

Fixpoint shiftDown_rec (fuel : nat) (position : Z) : M unit :=
  match fuel with
  | O => λ _, OutOfFuel
  | S fuel' =>
      let leftChildIndex := getLeftChildIndex position in
      let rightChildIndex := getRightChildIndex position in
      let* n := getNum in
      let* minIndex :=
        (if rightChildIndex >=? n then
           let* n := getNum in
           if leftChildIndex >=? n then ret None
           else ret (Some leftChildIndex)
         else
           let* m := getSmallerChild position in ret (Some m)) in
      match minIndex with
      | None => ret ()
      | Some minIndex =>
          let* e := getQ position in
          let* c := getQ minIndex in
          if dgt (D e) (D c) then
            let* temp := getQ minIndex in
            let* e := getQ position in
            setQ minIndex e >>
            setP position minIndex >>
            setQ position temp >>
            setP minIndex position >>
            shiftDown_rec fuel' minIndex
          else ret ()
      end
  end.

(** The slot index strictly increases along the recursion and stays below
    [NumElements]. *)
Definition shiftDown (position : Z) : M unit :=
  let* n := getNum in
  shiftDown_rec (S (Z.to_nat (n - position))) position.

(** ** swap *)

Definition swap (position : Z) : M unit :=
  let* okParent := inCorrectSpotwithRespectToParent position in
  (if negb okParent then shiftUp position else ret ()) >>
  let* okChild := inCorrectSpotwithRespectToChild position in
  if negb okChild then shiftDown position else ret ().

(** ** Insert *)

Definition Insert (v : Z) (d : dist) : M unit :=
  let* cap := getCap in
  if (v <? 0) || (v >=? cap) then
    throw (logic_error "Invalid vertex passed to PQueue::Insert")
  else
    let* p := getP v in
    if negb (p =? -1) then
      throw (logic_error
        "**Internal error: PQueue::Insert called while vertex is still in queue")
    else
      let temp := {| V := v; D := d |} in
      let* n := getNum in
      setQ n temp >>
      let* n := getNum in
      setP v n >>
      let* n := getNum in
      setNum (n + 1) >>
      let* n := getNum in
      let* e := getQ (n - 1) in
      let* p := getQ (getParentIndex (n - 1)) in
      if dlt (D e) (D p) then shiftUp (n - 1) else ret ().


(** ** Delete *)

Definition Delete (position : Z) : M Z :=
  let* empty := Empty in
  if empty then
    throw (logic_error
      "**Internal error: call to PQueue::Delete with an empty queue")
  else
    let* n := getNum in
    if (position <? 0) || (position >=? n) then
      throw (logic_error "**Internal error: invalid position in PQueue::Delete")
    else
      let* e := getQ position in
      let v := V e in
      let* n := getNum in
      if position =? n - 1 then
        setD position minus_one >>
        setV position (-1) >>
        setP v (-1) >>
        let* n := getNum in
        setNum (n - 1) >>
        ret v
      else
        let* n := getNum in
        if n =? 1 then
          setNum (n - 1) >>
          setP v (-1) >>
          let* n := getNum in
          setD n minus_one >>
          setV n (-1) >>
          ret v
        else
          setNum (n - 1) >>
          let* n := getNum in
          let* last := getQ n in
          setQ position last >>
          let* moved := getQ position in
          setP (V moved) position >>
          setP v (-1) >>
          setV n (-1) >>
          setD n minus_one >>
          let* okParent := inCorrectSpotwithRespectToParent position in
          let* inPlace :=
            (if okParent then inCorrectSpotwithRespectToChild position
             else ret false) in
          if inPlace then ret v
          else swap position >> ret v.

(** ** Push *)

Definition Push (vertex : Z) (distance : dist) : M unit :=
  let* cap := getCap in
  if (vertex <? 0) || (vertex >=? cap) then
    throw (logic_error "Invalid vertex passed to PQueue::Push, must be 0..N-1")
  else
    let* position := getP vertex in
    (if position >=? 0 then
       let* deletedV := Delete position in
       if negb (deletedV =? vertex) then
         throw (logic_error "**Internal error: vertex mismatch in PQueue::Push")
       else
         let* p := getP vertex in
         if negb (p =? -1) then
           throw (logic_error
             "**Internal error: vertex position not deleted in PQueue::Push")
         else ret ()
     else ret ()) >>
    Insert vertex distance.

(** ** PopMin *)

Definition PopMin : M Z :=
  let* empty := Empty in
  if empty then throw (logic_error "stack empty!")
  else Delete 0.

(** ** Sequences of public calls *)

Fixpoint Push_all (l : list (Z * dist)) : M unit :=
  match l with
  | [] => ret ()
  | (v, d) :: l' => Push v d >> Push_all l'
  end.

(** [n] calls of [PopMin]; the vertices returned, first call first. *)
Fixpoint PopMin_times (n : nat) : M (list Z) :=
  match n with
  | O => ret []
  | S n' =>
      let* v := PopMin in
      let* vs := PopMin_times n' in
      ret (v :: vs)
  end.

(** ** Observations on a queue *)

(** The entries in the occupied slots [0 .. NumElements-1], and their
    vertices. *)
Definition occupied (s : PQueue) : list Elem :=
  take (Z.to_nat (NumElements s)) (Queue s).
Definition vertices (s : PQueue) : list Z := V <$> occupied s.

(** The entries stored for vertex [v]. *)
Definition entries_of (v : Z) (s : PQueue) : list Elem :=
  filter (λ e, V e = v) (occupied s).

(** Queues produced by the constructor and successful public calls. *)
Inductive reachable : PQueue → Prop :=
| reachable_new N s :
    PQueue_new N = inr s → reachable s
| reachable_Fill s d s' :
    reachable s → Fill d s = Ok () s' → reachable s'
| reachable_Push s v d s' :
    reachable s → Push v d s = Ok () s' → reachable s'
| reachable_PopMin s v s' :
    reachable s → PopMin s = Ok v s' → reachable s'
| reachable_Empty s b s' :
    reachable s → Empty s = Ok b s' → reachable s'.

(** A public call, its result dropped, and a sequence of them. *)
Inductive call :=
| CallFill (distance : dist)
| CallPush (vertex : Z) (distance : dist)
| CallPopMin
| CallEmpty.

Definition do_call (c : call) : M unit :=
  match c with
  | CallFill d => Fill d
  | CallPush v d => Push v d
  | CallPopMin => PopMin >> ret ()
  | CallEmpty => Empty >> ret ()
  end.

Fixpoint do_calls (cs : list call) : M unit :=
  match cs with
  | [] => ret ()
  | c :: cs' => do_call c >> do_calls cs'
  end.

(** A run on a freshly constructed queue of capacity [N]. *)
Definition from_new {A} (N : Z) (m : M A) : option (outcome PQueue A) :=
  match PQueue_new N with
  | inl _ => None
  | inr s => Some (m s)
  end.

(** [PopMin] returns a vertex whose distance is minimal among the entries
    present at the call. *)
Definition PopMin_returns_minimum (s : PQueue) : Prop :=
  ∀ v s', PopMin s = Ok v s' →
    ∃ e, e ∈ occupied s ∧ V e = v ∧
         ∀ e', e' ∈ occupied s → dle (D e) (D e') = true.

(** I1: every occupied slot but the root holds a distance that is at least
    its parent's. *)
Definition heap_order (s : PQueue) : Prop :=
  ∀ i e p, 0 < i < NumElements s →
    rd (Queue s) i = Some e → rd (Queue s) (getParentIndex i) = Some p →
    dge (D e) (D p) = true.

(** I2: positions other than -1 name the occupied slot holding the vertex,
    and every occupied slot is named by the position of its vertex. *)
Definition bijection (s : PQueue) : Prop :=
  (∀ v i, rd (Positions s) v = Some i → i ≠ -1 →
     (0 ≤ i < NumElements s) ∧ ∃ e, rd (Queue s) i = Some e ∧ V e = v) ∧
  (∀ i e, 0 ≤ i < NumElements s → rd (Queue s) i = Some e →
     rd (Positions s) (V e) = Some i).

(** A call that comes to an end, whatever the outcome. *)
Definition terminates {A} (m : M A) : Prop :=
  ∀ s, m s ≠ OutOfFuel.

(** What holds of every reachable queue, whatever the distances. *)
Record wf (s : PQueue) : Prop := {
  wf_queue_length : Z.of_nat (length (Queue s)) = Capacity s;
  wf_positions_length : Z.of_nat (length (Positions s)) = Capacity s;
  wf_count : 0 ≤ NumElements s ≤ Capacity s;
  wf_unique : NoDup (vertices s);
  wf_absent : ∀ w, rd (Positions s) w = Some (-1) → w ∉ vertices s
}.

(** What the sifting procedures may change. *)
Record sifted (s s' : PQueue) : Prop := {
  sifted_count : NumElements s' = NumElements s;
  sifted_capacity : Capacity s' = Capacity s;
  sifted_queue_length : length (Queue s') = length (Queue s);
  sifted_positions_length : length (Positions s') = length (Positions s);
  sifted_occupied : occupied s' ≡ₚ occupied s;
  sifted_absent :
    ∀ w, rd (Positions s') w = Some (-1) → rd (Positions s) w = Some (-1)
}.

(** A call that throws no exception. *)
Definition never_throws {A} (m : M A) : Prop :=
  ∀ s e s', m s ≠ Throw e s'.

(** The slots from [NumElements] on hold the cleared element, and the
    vertices of the occupied slots are vertex numbers. *)
Record tidy (s : PQueue) : Prop := {
  tidy_cleared :
    ∀ i, NumElements s ≤ i < Capacity s → rd (Queue s) i = Some Elem_default;
  tidy_vertices :
    ∀ e, e ∈ occupied s → 0 ≤ V e < Capacity s
}.

(** The slots from [n] on are the same in both queues. *)
Definition tail_kept (n : Z) (s s' : PQueue) : Prop :=
  ∀ i, n ≤ i → rd (Queue s') i = rd (Queue s) i.

(** The child [shiftDown] compares with: the left one when it is the only
    one below [NumElements], else the one [getSmallerChild] returns. *)
Definition shiftDown_child (position : Z) (s : PQueue) (m : Z) : Prop :=
  (NumElements s ≤ position * 2 + 2 ∧ position * 2 + 1 < NumElements s ∧
   m = position * 2 + 1) ∨
  (position * 2 + 2 < NumElements s ∧ getSmallerChild position s = Ok m s).

(** The queue of capacity [N] holding every vertex at distance [d], vertex
    [v] in slot [v]. *)
Definition filled (N : Z) (d : dist) : PQueue :=
  {| Positions := seqZ 0 N;
     Queue := (λ v, mkElem v d) <$> seqZ 0 N;
     NumElements := N;
     Capacity := N |}.

(** A queue of capacity [N] whose first [k] slots hold the vertices
    [0 .. k-1] in order, at distance [d], and nothing else. *)
Record filled_upto (N : Z) (d : dist) (k : Z) (s : PQueue) : Prop := {
  upto_capacity : Capacity s = N;
  upto_count : NumElements s = k;
  upto_queue_length : Z.of_nat (length (Queue s)) = N;
  upto_positions_length : Z.of_nat (length (Positions s)) = N;
  upto_stored : ∀ i, 0 ≤ i < k →
    rd (Queue s) i = Some (mkElem i d) ∧ rd (Positions s) i = Some i;
  upto_free : ∀ i, k ≤ i < N →
    rd (Queue s) i = Some Elem_default ∧ rd (Positions s) i = Some (-1)
}.

(** The heap order with slot [k] left out: every other slot is in order
    with its parent, and the children of [k] are in order with the parent
    of [k]. *)
Record heap_order_but (k : Z) (s : PQueue) : Prop := {
  but_others : ∀ i e p, 0 < i < NumElements s → i ≠ k →
    rd (Queue s) i = Some e → rd (Queue s) (getParentIndex i) = Some p →
    dle (D p) (D e) = true;
  but_children : ∀ i e g, 0 < i < NumElements s →
    getParentIndex i = k → 0 < k →
    rd (Queue s) i = Some e → rd (Queue s) (getParentIndex k) = Some g →
    dle (D g) (D e) = true
}.

(** Every distance stored is above the value -1.0 that marks a cleared
    slot. *)
Definition above_sentinel (s : PQueue) : Prop :=
  ∀ e, e ∈ occupied s → dlt minus_one (D e) = true.

(** Queues produced by the constructor and successful public calls whose
    distances are all above -1.0. *)
Inductive reachable_above : PQueue → Prop :=
| reachable_above_new N s :
    PQueue_new N = inr s → reachable_above s
| reachable_above_Fill s d s' :
    reachable_above s → dlt minus_one d = true →
    Fill d s = Ok () s' → reachable_above s'
| reachable_above_Push s v d s' :
    reachable_above s → dlt minus_one d = true →
    Push v d s = Ok () s' → reachable_above s'
| reachable_above_PopMin s v s' :
    reachable_above s → PopMin s = Ok v s' → reachable_above s'
| reachable_above_Empty s b s' :
    reachable_above s → Empty s = Ok b s' → reachable_above s'.

(** The cleared slots hold -1.0 and the occupied ones a distance above
    it, so that the distance tells the two apart. *)
Record sentinels (s : PQueue) : Prop := {
  sent_cleared : ∀ i e, NumElements s ≤ i →
    rd (Queue s) i = Some e → D e = minus_one;
  sent_above : above_sentinel s
}.

(** * Lemmas *)

(** ** Arrays *)

Lemma rd_Some {A} (l : list A) i x :
  rd l i = Some x ↔ 0 ≤ i ∧ l !! Z.to_nat i = Some x.
Proof.
  unfold rd. destruct (Z.ltb_spec i 0); split.
  - done.
  - intros [? _]. lia.
  - intros ?. split; [lia | done].
  - intros [_ ?]. done.
Qed.

Lemma rd_lt {A} (l : list A) i x :
  rd l i = Some x → 0 ≤ i < Z.of_nat (length l).
Proof.
  intros [? Hl]%rd_Some. apply lookup_lt_Some in Hl. lia.
Qed.

Lemma wr_Some {A} (l : list A) i x l' :
  wr l i x = Some l' ↔
  (0 ≤ i < Z.of_nat (length l)) ∧ l' = <[Z.to_nat i := x]> l.
Proof.
  unfold wr.
  destruct (Z.leb_spec 0 i), (Z.ltb_spec i (Z.of_nat (length l))); simpl;
    split; try (intros [? ?]; lia); try done.
  - intros [= <-]. done.
  - intros [_ ->]. done.
Qed.

Lemma rd_wr_eq {A} (l l' : list A) i x :
  wr l i x = Some l' → rd l' i = Some x.
Proof.
  intros [? ->]%wr_Some. apply rd_Some. split; [lia|].
  apply list_lookup_insert_eq. lia.
Qed.

Lemma rd_wr_ne {A} (l l' : list A) i j x :
  wr l i x = Some l' → i ≠ j → rd l' j = rd l j.
Proof.
  intros [? ->]%wr_Some ?. unfold rd. destruct (j <? 0) eqn:E; [done|].
  apply Z.ltb_ge in E. apply list_lookup_insert_ne. lia.
Qed.

Lemma wr_length {A} (l l' : list A) i x :
  wr l i x = Some l' → length l' = length l.
Proof. intros [? ->]%wr_Some. apply length_insert. Qed.

(** Replacing one element of a list, up to the order of the elements. *)
Lemma insert_Permutation_cons {A} (l : list A) i x y :
  l !! i = Some x → x :: <[i := y]> l ≡ₚ y :: l.
Proof.
  revert i. induction l as [|a l IH]; intros [|i] Hi; simplify_eq/=.
  - apply perm_swap.
  - rewrite (perm_swap a x), (IH _ Hi). apply perm_swap.
Qed.

(** Exchanging two elements of a list. *)
Lemma exchange_Permutation {A} (l : list A) i j a b :
  l !! i = Some a → l !! j = Some b →
  <[j := a]> (<[i := b]> l) ≡ₚ l.
Proof.
  intros Hi Hj. destruct (decide (i = j)) as [->|Hne].
  - simplify_eq. rewrite list_insert_insert_eq. by rewrite list_insert_id.
  - apply (inj (cons b)).
    rewrite (insert_Permutation_cons _ j b a).
    + by apply insert_Permutation_cons.
    + by rewrite list_lookup_insert_ne.
Qed.

Lemma take_exchange_Permutation {A} (l : list A) n i j a b :
  (i < n)%nat → (j < n)%nat → l !! i = Some a → l !! j = Some b →
  take n (<[j := a]> (<[i := b]> l)) ≡ₚ take n l.
Proof.
  intros ?? Hi Hj.
  rewrite !take_insert_lt by done.
  apply exchange_Permutation; by rewrite lookup_take_lt.
Qed.

(** ** The monad *)

Lemma bind_Ok {A B} (m : M A) (k : A → M B) s b s' :
  bind m k s = Ok b s' ↔ ∃ a s1, m s = Ok a s1 ∧ k a s1 = Ok b s'.
Proof.
  unfold bind. destruct (m s) as [a s1| | |]; split;
    try done; try (by intros (?&?&?&?)); eauto.
  intros (?&?&[= <- <-]&?). done.
Qed.

Lemma ret_Ok {A} (a b : A) s s' : ret a s = Ok b s' ↔ b = a ∧ s' = s.
Proof. unfold ret. split; [by intros [= -> ->] | by intros [-> ->]]. Qed.

Lemma getQ_Ok i s e s' :
  getQ i s = Ok e s' ↔ rd (Queue s) i = Some e ∧ s' = s.
Proof.
  unfold getQ. destruct (rd (Queue s) i); split;
    try done; try (by intros [? ?]).
  - by intros [= -> ->].
  - by intros [[= ->] ->].
Qed.

Lemma setQ_Ok i e s u s' :
  setQ i e s = Ok u s' ↔
  ∃ q, wr (Queue s) i e = Some q ∧
       s' = mkPQueue (Positions s) q (NumElements s) (Capacity s).
Proof.
  unfold setQ. destruct (wr (Queue s) i e) as [q|]; split.
  - intros [= _ <-]. eauto.
  - intros (?&[= <-]&->). by destruct u.
  - done.
  - by intros (?&?&?).
Qed.

Lemma getP_Ok v s p s' :
  getP v s = Ok p s' ↔ rd (Positions s) v = Some p ∧ s' = s.
Proof.
  unfold getP. destruct (rd (Positions s) v); split;
    try done; try (by intros [? ?]).
  - by intros [= -> ->].
  - by intros [[= ->] ->].
Qed.

Lemma setP_Ok v p s u s' :
  setP v p s = Ok u s' ↔
  ∃ ps, wr (Positions s) v p = Some ps ∧
        s' = mkPQueue ps (Queue s) (NumElements s) (Capacity s).
Proof.
  unfold setP. destruct (wr (Positions s) v p) as [ps|]; split.
  - intros [= _ <-]. eauto.
  - intros (?&[= <-]&->). by destruct u.
  - done.
  - by intros (?&?&?).
Qed.

Lemma getNum_Ok s n s' : getNum s = Ok n s' ↔ n = NumElements s ∧ s' = s.
Proof. unfold getNum. split; [by intros [= -> ->] | by intros [-> ->]]. Qed.

Lemma getCap_Ok s n s' : getCap s = Ok n s' ↔ n = Capacity s ∧ s' = s.
Proof. unfold getCap. split; [by intros [= -> ->] | by intros [-> ->]]. Qed.

Lemma setNum_Ok n s u s' :
  setNum n s = Ok u s' ↔
  s' = mkPQueue (Positions s) (Queue s) n (Capacity s).
Proof.
  unfold setNum. split; [by intros [= <-] | intros ->; by destruct u].
Qed.

Lemma throw_Ok {A} e s (a : A) s' : throw e s = Ok a s' ↔ False.
Proof. done. Qed.

(** Taking a successful run apart, one call at a time. *)
Ltac inv_ok_step :=
  match goal with
  | H : bind _ _ _ = Ok _ _ |- _ =>
      apply bind_Ok in H; destruct H as (?&?&?&H)
  | H : ret _ _ = Ok _ _ |- _ => apply ret_Ok in H; destruct H as [? ?]
  | H : throw _ _ = Ok _ _ |- _ => by apply throw_Ok in H
  | H : getQ _ _ = Ok _ _ |- _ => apply getQ_Ok in H; destruct H as [H ?]
  | H : getP _ _ = Ok _ _ |- _ => apply getP_Ok in H; destruct H as [H ?]
  | H : getNum _ = Ok _ _ |- _ => apply getNum_Ok in H; destruct H as [? ?]
  | H : getCap _ = Ok _ _ |- _ => apply getCap_Ok in H; destruct H as [? ?]
  | H : setQ _ _ _ = Ok _ _ |- _ => apply setQ_Ok in H; destruct H as (?&H&?)
  | H : setP _ _ _ = Ok _ _ |- _ => apply setP_Ok in H; destruct H as (?&H&?)
  | H : setNum _ _ = Ok _ _ |- _ => apply setNum_Ok in H
  | H : (if ?b then _ else _) _ = Ok _ _ |- _ => destruct b eqn:?
  end; subst; simpl in *.

Ltac inv_ok := repeat inv_ok_step.

(** ** Sifting keeps the entries and never marks a vertex absent *)

Lemma sifted_refl s : sifted s s.
Proof. by split. Qed.

Lemma sifted_trans s1 s2 s3 : sifted s1 s2 → sifted s2 s3 → sifted s1 s3.
Proof.
  intros [] []. split; try congruence; [by etrans | auto].
Qed.

Lemma wr_absent (l l' : list Z) i p w :
  wr l i p = Some l' → p ≠ -1 → rd l' w = Some (-1) → rd l w = Some (-1).
Proof.
  intros Hw Hp Hr. destruct (decide (i = w)) as [->|Hne].
  - rewrite (rd_wr_eq _ _ _ _ Hw) in Hr. congruence.
  - by rewrite <-(rd_wr_ne _ _ _ _ _ Hw Hne).
Qed.

(** One exchange of two occupied slots, with any two position updates that
    do not store -1. *)
Lemma exchange_sifted s i j a b q1 q2 v1 p1 v2 p2 ps1 ps2 :
  rd (Queue s) i = Some a → rd (Queue s) j = Some b →
  wr (Queue s) i b = Some q1 → wr q1 j a = Some q2 →
  i < NumElements s → j < NumElements s →
  wr (Positions s) v1 p1 = Some ps1 → wr ps1 v2 p2 = Some ps2 →
  p1 ≠ -1 → p2 ≠ -1 →
  sifted s (mkPQueue ps2 q2 (NumElements s) (Capacity s)).
Proof.
  intros [? Ha]%rd_Some [? Hb]%rd_Some Hq1 Hq2 ?? Hp1 Hp2 ??.
  split; simpl; try done.
  - rewrite (wr_length _ _ _ _ Hq2). by rewrite (wr_length _ _ _ _ Hq1).
  - rewrite (wr_length _ _ _ _ Hp2). by rewrite (wr_length _ _ _ _ Hp1).
  - apply wr_Some in Hq1 as [? ->]. apply wr_Some in Hq2 as [? ->].
    unfold occupied; simpl. apply take_exchange_Permutation; try done; lia.
  - intros w Hw. eapply wr_absent; [exact Hp1|done|].
    eapply wr_absent; [exact Hp2|done|done].
Qed.

Lemma getParentIndex_le position :
  0 ≤ position → 0 ≤ getParentIndex position ≤ position.
Proof.
  intros ?. unfold getParentIndex.
  destruct (decide (position = 0)) as [->|]; [done|].
  split; [apply Z.quot_pos; lia|].
  apply Z.quot_le_upper_bound; lia.
Qed.

Lemma getParentIndex_lt position :
  0 < position → getParentIndex position < position.
Proof.
  intros ?. unfold getParentIndex. apply Z.quot_lt_upper_bound; lia.
Qed.

Lemma shiftUp_rec_sifted fuel position s u s' :
  shiftUp_rec fuel position s = Ok u s' →
  position < NumElements s →
  sifted s s'.
Proof.
  revert position s. induction fuel as [|fuel IH]; intros position s Hrun Hlt;
    [done|].
  simpl in Hrun. inv_ok; try apply sifted_refl.
  repeat match goal with
  | Hq : wr _ ?i _ = Some ?q1, E : rd ?q1 ?i = Some _ |- _ =>
      rewrite (rd_wr_eq _ _ _ _ Hq) in E; simplify_eq
  end.
  repeat match goal with
  | H1 : ?x = Some ?a, H2 : ?x = Some ?b |- _ =>
      assert (a = b) as -> by congruence; clear H2
  end.
  match goal with
  | He : rd (Queue s) position = Some _ |- _ => pose proof (rd_lt _ _ _ He)
  end.
  pose proof (getParentIndex_le position).
  eapply sifted_trans; [|eapply IH; [eassumption|simpl; lia]].
  eapply (exchange_sifted s (getParentIndex position) position);
    try eassumption; lia.
Qed.

Lemma getSmallerChild_Ok position s m s' :
  getSmallerChild position s = Ok m s' →
  s' = s ∧ (m = position * 2 + 1 ∨ m = position * 2 + 2) ∧
  is_Some (rd (Queue s) (position * 2 + 1)) ∧
  is_Some (rd (Queue s) (position * 2 + 2)).
Proof. unfold getSmallerChild. intros Hrun. inv_ok; eauto 10. Qed.

Lemma inCorrectSpotwithRespectToParent_Ok position s b s' :
  inCorrectSpotwithRespectToParent position s = Ok b s' → s' = s.
Proof. unfold inCorrectSpotwithRespectToParent. intros Hrun. by inv_ok. Qed.

Lemma inCorrectSpotwithRespectToChild_Ok position s b s' :
  inCorrectSpotwithRespectToChild position s = Ok b s' → s' = s.
Proof.
  unfold inCorrectSpotwithRespectToChild. intros Hrun. inv_ok; try done.
  all: match goal with
       | Hc : getSmallerChild _ _ = Ok _ _ |- _ =>
           apply getSmallerChild_Ok in Hc as (->&_)
       end; by inv_ok.
Qed.

Lemma shiftDown_rec_sifted fuel position s u s' :
  shiftDown_rec fuel position s = Ok u s' → sifted s s'.
Proof.
  revert position s. induction fuel as [|fuel IH]; intros position s Hrun;
    [done|].
  simpl in Hrun. apply bind_Ok in Hrun as (n&s0&Hn&Hrun).
  apply getNum_Ok in Hn as [-> ->].
  apply bind_Ok in Hrun as (minIndex&s1&Hmin&Hrun).
  assert (s1 = s ∧ ∀ m, minIndex = Some m →
            position * 2 + 1 ≤ m < NumElements s) as [-> Hm].
  { clear Hrun. unfold getLeftChildIndex, getRightChildIndex in Hmin.
    destruct (_ >=? _) eqn:Er in Hmin.
    - inv_ok; (split; [done|]); intros m ?; simplify_eq. lia.
    - inv_ok.
      match goal with
      | Hc : getSmallerChild _ _ = Ok _ _ |- _ =>
          apply getSmallerChild_Ok in Hc as (->&Hc&_)
      end.
      split; [done|]. intros m ?; simplify_eq. lia. }
  clear Hmin.
  destruct minIndex as [m|]; [|inv_ok; apply sifted_refl].
  specialize (Hm m eq_refl).
  inv_ok; try apply sifted_refl.
  repeat match goal with
  | H1 : ?x = Some ?a, H2 : ?x = Some ?b |- _ =>
      assert (a = b) as -> by congruence; clear H2
  end.
  match goal with
  | He : rd (Queue s) position = Some _ |- _ => pose proof (rd_lt _ _ _ He)
  end.
  eapply sifted_trans; [|eapply IH; eassumption].
  eapply (exchange_sifted s m position); try eassumption; lia.
Qed.

Lemma shiftUp_sifted position s u s' :
  shiftUp position s = Ok u s' → position < NumElements s → sifted s s'.
Proof. unfold shiftUp. apply shiftUp_rec_sifted. Qed.

Lemma shiftDown_sifted position s u s' :
  shiftDown position s = Ok u s' → sifted s s'.
Proof.
  unfold shiftDown. intros (n&s0&[-> ->]%getNum_Ok&Hrun)%bind_Ok.
  by eapply shiftDown_rec_sifted.
Qed.

Lemma swap_sifted position s u s' :
  swap position s = Ok u s' → position < NumElements s → sifted s s'.
Proof.
  unfold swap. intros Hrun Hlt.
  apply bind_Ok in Hrun as (okParent&s0&Hp&Hrun).
  apply inCorrectSpotwithRespectToParent_Ok in Hp as ->.
  apply bind_Ok in Hrun as ([]&s1&Hup&Hrun).
  apply bind_Ok in Hrun as (okChild&s2&Hc&Hrun).
  apply inCorrectSpotwithRespectToChild_Ok in Hc as ->.
  assert (sifted s s1) as Hs1.
  { clear Hrun. destruct okParent; simpl in Hup.
    - apply ret_Ok in Hup as [_ ->]. apply sifted_refl.
    - by eapply shiftUp_sifted. }
  eapply sifted_trans; [exact Hs1|].
  destruct okChild; simpl in Hrun.
  - apply ret_Ok in Hrun as [_ ->]. apply sifted_refl.
  - by eapply shiftDown_sifted.
Qed.

Arguments shiftUp : simpl never.
Arguments shiftDown : simpl never.

(** ** Facts about Insert *)

Lemma Insert_Ok v d s u s' :
  Insert v d s = Ok u s' →
  (0 ≤ v < Capacity s) ∧ rd (Positions s) v = Some (-1) ∧
  (0 ≤ NumElements s < Z.of_nat (length (Queue s))) ∧
  NumElements s' = NumElements s + 1 ∧ Capacity s' = Capacity s ∧
  length (Queue s') = length (Queue s) ∧
  length (Positions s') = length (Positions s) ∧
  occupied s' ≡ₚ occupied s ++ [mkElem v d] ∧
  (∀ w, rd (Positions s') w = Some (-1) →
        w ≠ v ∧ rd (Positions s) w = Some (-1)).
Proof.
  unfold Insert. intros Hrun.
  apply bind_Ok in Hrun as (cap&s0&[-> ->]%getCap_Ok&Hrun).
  destruct (_ || _) eqn:Erange in Hrun; [done|].
  apply orb_false_iff in Erange as [?%Z.ltb_ge E2].
  rewrite Z.geb_leb in E2. apply Z.leb_gt in E2.
  apply bind_Ok in Hrun as (p&s0&[Hp ->]%getP_Ok&Hrun).
  destruct (negb _) eqn:Ep in Hrun; [done|].
  apply negb_false_iff, Z.eqb_eq in Ep as ->.
  apply bind_Ok in Hrun as (?&?&[-> ->]%getNum_Ok&Hrun).
  apply bind_Ok in Hrun as (?&?&(q&Hq&->)%setQ_Ok&Hrun).
  apply bind_Ok in Hrun as (?&?&[-> ->]%getNum_Ok&Hrun).
  apply bind_Ok in Hrun as (?&?&(ps&Hps&->)%setP_Ok&Hrun).
  apply bind_Ok in Hrun as (?&?&[-> ->]%getNum_Ok&Hrun).
  apply bind_Ok in Hrun as (?&?&->%setNum_Ok&Hrun).
  apply bind_Ok in Hrun as (?&?&[-> ->]%getNum_Ok&Hrun).
  apply bind_Ok in Hrun as (e&?&[He ->]%getQ_Ok&Hrun).
  apply bind_Ok in Hrun as (e'&?&[He' ->]%getQ_Ok&Hrun).
  simpl in *.
  set (s1 := mkPQueue ps q (NumElements s + 1) (Capacity s)) in *.
  pose proof (proj1 (wr_Some _ _ _ _) Hq) as [Hn Hqeq].
  assert (sifted s1 s') as Hsift.
  { destruct (dlt _ _) in Hrun.
    - eapply shiftUp_sifted; [exact Hrun|]. simpl. lia.
    - apply ret_Ok in Hrun as [_ ->]. apply sifted_refl. }
  destruct Hsift as [Hc Hcap Hlq Hlp Hocc Habs]. simpl in *.
  split_and!; try lia; try done.
  - rewrite Hlq. by eapply wr_length.
  - rewrite Hlp. by eapply wr_length.
  - rewrite Hocc. unfold occupied; simpl.
    replace (Z.to_nat (NumElements s + 1))
      with (S (Z.to_nat (NumElements s))) by lia.
    rewrite Hqeq.
    rewrite (take_S_r _ _ (mkElem v d))
      by (apply list_lookup_insert_eq; lia).
    by rewrite take_insert_ge.
  - intros w Hw%Habs. split.
    + intros ->. rewrite (rd_wr_eq _ _ _ _ Hps) in Hw. simplify_eq. lia.
    + eapply wr_absent; [exact Hps| lia |done].
Qed.

(** ** Facts about Delete *)

Lemma setV_Ok i v s u s' :
  setV i v s = Ok u s' ↔
  ∃ e q, rd (Queue s) i = Some e ∧
         wr (Queue s) i {| V := v; D := D e |} = Some q ∧
         s' = mkPQueue (Positions s) q (NumElements s) (Capacity s).
Proof.
  unfold setV. rewrite bind_Ok. split.
  - intros (e&s0&[He ->]%getQ_Ok&(q&Hq&->)%setQ_Ok). eauto.
  - intros (e&q&He&Hq&->). exists e, s. split; [by apply getQ_Ok|].
    apply setQ_Ok. eauto.
Qed.

Lemma setD_Ok i d s u s' :
  setD i d s = Ok u s' ↔
  ∃ e q, rd (Queue s) i = Some e ∧
         wr (Queue s) i {| V := V e; D := d |} = Some q ∧
         s' = mkPQueue (Positions s) q (NumElements s) (Capacity s).
Proof.
  unfold setD. rewrite bind_Ok. split.
  - intros (e&s0&[He ->]%getQ_Ok&(q&Hq&->)%setQ_Ok). eauto.
  - intros (e&q&He&Hq&->). exists e, s. split; [by apply getQ_Ok|].
    apply setQ_Ok. eauto.
Qed.

(** One call of a successful run. *)
Ltac step H :=
  let H1 := fresh "Hstep" in
  apply bind_Ok in H as (?&?&H1&H);
  first
    [ apply getQ_Ok in H1 as [H1 ->]
    | apply getP_Ok in H1 as [H1 ->]
    | apply getNum_Ok in H1 as [-> ->]
    | apply getCap_Ok in H1 as [-> ->]
    | apply setQ_Ok in H1 as (?&H1&->)
    | apply setP_Ok in H1 as (?&H1&->)
    | apply setV_Ok in H1 as (?&?&?&H1&->)
    | apply setD_Ok in H1 as (?&?&?&H1&->)
    | apply setNum_Ok in H1 as -> ];
  simpl in H.

Tactic Notation "step_getQ" hyp(H) "as" ident(e) ident(He) :=
  apply bind_Ok in H as (e&?&He&H);
  apply getQ_Ok in He as [He ->];
  simpl in H.

(** The end of [Delete]: the moved entry is put back in order. *)
Lemma Delete_restore_sifted position (v : Z) s r s' :
  bind (inCorrectSpotwithRespectToParent position) (λ okParent,
    bind (if okParent then inCorrectSpotwithRespectToChild position
          else ret false) (λ inPlace,
      if inPlace then ret v else bind (swap position) (λ _, ret v)))
    s = Ok r s' →
  position < NumElements s →
  r = v ∧ sifted s s'.
Proof.
  intros (okParent&s0&->%inCorrectSpotwithRespectToParent_Ok&Hrun)%bind_Ok ?.
  apply bind_Ok in Hrun as (inPlace&s1&Hc&Hrun).
  assert (s1 = s) as ->.
  { destruct okParent.
    - by apply inCorrectSpotwithRespectToChild_Ok in Hc.
    - by apply ret_Ok in Hc as [_ ->]. }
  destruct inPlace.
  - apply ret_Ok in Hrun as [-> ->]. split; [done|apply sifted_refl].
  - apply bind_Ok in Hrun as ([]&s2&Hswap&[-> ->]%ret_Ok).
    split; [done|]. by eapply swap_sifted.
Qed.

Lemma Delete_Ok position s v s' :
  Delete position s = Ok v s' →
  ∃ e, rd (Queue s) position = Some e ∧ V e = v ∧
    (0 ≤ position < NumElements s) ∧
    NumElements s ≤ Z.of_nat (length (Queue s)) ∧
    NumElements s' = NumElements s - 1 ∧ Capacity s' = Capacity s ∧
    length (Queue s') = length (Queue s) ∧
    length (Positions s') = length (Positions s) ∧
    occupied s ≡ₚ e :: occupied s' ∧
    (∀ w, rd (Positions s') w = Some (-1) →
          w = v ∨ rd (Positions s) w = Some (-1)).
Proof.
  unfold Delete, Empty. intros Hrun.
  apply bind_Ok in Hrun as (empty&s0&Hempty&Hrun).
  step Hempty. apply ret_Ok in Hempty as [-> ->].
  destruct (_ =? 0) eqn:E0 in Hrun; [done|]. apply Z.eqb_neq in E0.
  step Hrun.
  destruct (_ || _) eqn:Erange in Hrun; [done|].
  apply orb_false_iff in Erange as [?%Z.ltb_ge E2].
  rewrite Z.geb_leb in E2. apply Z.leb_gt in E2.
  step_getQ Hrun as e He.
  pose proof (rd_lt _ _ _ He).
  pose proof (proj1 (rd_Some _ _ _) He) as [_ He'].
  step Hrun.
  exists e. split; [done|].
  destruct (Z.eqb_spec position (NumElements s - 1)) as [Elast|Elast].
  - (* the last occupied slot *)
    do 3 step Hrun. step Hrun. step Hrun. apply ret_Ok in Hrun as [-> ->].
    simpl in *.
    repeat match goal with
    | Hw : wr _ _ _ = Some _ |- _ =>
        apply wr_Some in Hw as [? ->]; simpl in *
    end.
    split_and!; rewrite ?length_insert; try done; try lia.
    + unfold occupied; simpl.
      replace (Z.to_nat (NumElements s)) with (S (Z.to_nat position)) by lia.
      rewrite (take_S_r _ _ e) by done.
      rewrite <-Elast, !take_insert_ge by done.
      by rewrite Permutation_app_comm.
    + intros w Hw. destruct (decide (w = V e)) as [->|Hne]; [by left|right].
      unfold rd in *. destruct (w <? 0) eqn:Ew; [done|].
      apply Z.ltb_ge in Ew.
      rewrite list_lookup_insert_ne in Hw by lia. done.
  - step Hrun.
    destruct (Z.eqb_spec (NumElements s) 1) as [E1|E1]; [lia|].
    do 2 step Hrun. step_getQ Hrun as last Hlast.
    step Hrun. step_getQ Hrun as moved Hmoved. do 4 step Hrun.
    apply Delete_restore_sifted in Hrun as [-> Hsift]; [|simpl; lia].
    destruct Hsift as [Hc Hcap Hlq Hlp Hocc Habs]. simpl in *.
    pose proof (rd_lt _ _ _ Hlast).
    pose proof (proj1 (rd_Some _ _ _) Hlast) as [_ Hlast'].
    repeat match goal with
    | Hw : wr _ _ _ = Some _ |- _ =>
        apply wr_Some in Hw as [? ->]; simpl in *
    end.
    rewrite ?length_insert in *.
    split_and!; rewrite ?length_insert; try done; try lia.
    + rewrite Hocc. unfold occupied; simpl.
      replace (Z.to_nat (NumElements s))
        with (S (Z.to_nat (NumElements s - 1))) by lia.
      rewrite (take_S_r _ _ last) by done.
      rewrite !take_insert_ge by lia.
      rewrite take_insert_lt by lia.
      rewrite insert_Permutation_cons by (rewrite lookup_take_lt; [done|lia]).
      by rewrite Permutation_app_comm.
    + intros w Hw%Habs.
      destruct (decide (w = V e)) as [->|Hne]; [by left|right].
      unfold rd in *. destruct (w <? 0) eqn:Ew; [done|].
      apply Z.ltb_ge in Ew.
      rewrite list_lookup_insert_ne in Hw by lia.
      destruct (decide (Z.to_nat (V moved) = Z.to_nat w)) as [Eq|Hne'].
      * rewrite Eq in Hw. rewrite list_lookup_insert_eq in Hw by lia.
        simplify_eq; lia.
      * by rewrite list_lookup_insert_ne in Hw.
Qed.

(** ** Every reachable queue is well formed *)

Lemma wf_new N s : PQueue_new N = inr s → wf s.
Proof.
  unfold PQueue_new. destruct (Z.ltb_spec N 0); [done|].
  intros [= <-]. split; simpl; rewrite ?length_replicate; try lia.
  - unfold vertices, occupied; simpl. constructor.
  - unfold vertices, occupied; simpl. intros w _. apply not_elem_of_nil.
Qed.

Lemma wf_Insert v d s u s' : wf s → Insert v d s = Ok u s' → wf s'.
Proof.
  intros [Hlq Hlp Hn Huniq Habs]
    (?&Hv&?&Hn'&Hcap&Hlq'&Hlp'&Hocc&Habs')%Insert_Ok.
  assert (vertices s' ≡ₚ vertices s ++ [v]) as Hvs.
  { unfold vertices. by rewrite Hocc, fmap_app. }
  split; try lia.
  - rewrite Hvs. apply NoDup_app. split_and!; [done| |apply NoDup_singleton].
    intros w Hw ->%list_elem_of_singleton. by apply (Habs v).
  - intros w [Hne Hw]%Habs'. rewrite Hvs.
    intros [?| ->%list_elem_of_singleton]%elem_of_app; [|done].
    by apply (Habs w).
Qed.

Lemma wf_Delete position s v s' : wf s → Delete position s = Ok v s' → wf s'.
Proof.
  intros [Hlq Hlp Hn Huniq Habs]
    (e&He&<-&?&?&Hn'&Hcap&Hlq'&Hlp'&Hocc&Habs')%Delete_Ok.
  assert (vertices s ≡ₚ V e :: vertices s') as Hvs.
  { unfold vertices. by rewrite Hocc. }
  rewrite Hvs in Huniq. apply NoDup_cons in Huniq as [Hnotin Huniq].
  split; try lia; [done|].
  intros w [->|Hw]%Habs'; [done|].
  intros Hin. apply (Habs w Hw). rewrite Hvs. by right.
Qed.

Lemma Empty_Ok s b s' :
  Empty s = Ok b s' ↔ b = (NumElements s =? 0) ∧ s' = s.
Proof.
  unfold Empty. rewrite bind_Ok. split.
  - by intros (n&s0&[-> ->]%getNum_Ok&[-> ->]%ret_Ok).
  - intros [-> ->]. by exists (NumElements s), s.
Qed.

Lemma PopMin_Ok s v s' :
  PopMin s = Ok v s' ↔ NumElements s ≠ 0 ∧ Delete 0 s = Ok v s'.
Proof.
  unfold PopMin. rewrite bind_Ok. split.
  - intros (b&s0&[-> ->]%Empty_Ok&Hrun).
    destruct (Z.eqb_spec (NumElements s) 0); [done|]. done.
  - intros [Hne Hrun]. exists false, s. split; [|done].
    apply Empty_Ok. split; [|done]. symmetry. by apply Z.eqb_neq.
Qed.

(** A successful [Push] is an [Insert], after a [Delete] when the vertex
    had a non-negative position. *)
Lemma Push_Ok vertex distance s u s' :
  Push vertex distance s = Ok u s' →
  ∃ s1, Insert vertex distance s1 = Ok u s' ∧
    (s1 = s ∨ ∃ position, rd (Positions s) vertex = Some position ∧
                0 ≤ position ∧ Delete position s = Ok vertex s1).
Proof.
  unfold Push. intros Hrun.
  step Hrun. destruct (_ || _) in Hrun; [done|].
  apply bind_Ok in Hrun as (position&s0&[Hpos ->]%getP_Ok&Hrun).
  apply bind_Ok in Hrun as ([]&s1&Hdel&Hrun).
  exists s1. split; [by destruct u|].
  destruct (Z.geb_spec position 0); simpl in Hdel.
  - right. exists position. split; [done|]. split; [lia|].
    apply bind_Ok in Hdel as (deletedV&s2&Hdel&Hrest).
    destruct (Z.eqb_spec deletedV vertex) as [->|]; [|done].
    simpl in Hrest. step Hrest. destruct (negb _) in Hrest; [done|].
    by apply ret_Ok in Hrest as [_ ->].
  - left. by apply ret_Ok in Hdel as [_ ->].
Qed.

Lemma wf_Push v d s u s' : wf s → Push v d s = Ok u s' → wf s'.
Proof.
  intros Hwf (s1&Hins&[->|(position&_&_&Hdel)])%Push_Ok.
  - by eapply wf_Insert.
  - eapply wf_Insert; [|done]. by eapply wf_Delete.
Qed.

Lemma wf_PopMin s v s' : wf s → PopMin s = Ok v s' → wf s'.
Proof. intros Hwf [_ Hdel]%PopMin_Ok. by eapply wf_Delete. Qed.

(** ** Fill *)

Lemma Fill_loop_Ok n v d s u s' :
  Fill_loop n v d s = Ok u s' → 0 ≤ v →
  NumElements s' = NumElements s ∧ Capacity s' = Capacity s ∧
  length (Queue s') = length (Queue s) ∧
  length (Positions s') = length (Positions s) ∧
  (∀ i, v ≤ i < v + Z.of_nat n →
        rd (Queue s') i = Some (mkElem i d) ∧ rd (Positions s') i = Some i) ∧
  (∀ i, i < v →
        rd (Queue s') i = rd (Queue s) i ∧
        rd (Positions s') i = rd (Positions s) i).
Proof.
  revert v s. induction n as [|n IH]; intros v s Hrun Hv; simpl in Hrun.
  - apply ret_Ok in Hrun as [_ ->]. split_and!; try done. lia.
  - do 3 step Hrun. simpl in *.
    apply IH in Hrun as (Hn&Hc&Hlq&Hlp&Hin&Hout); [|lia]. simpl in *.
    repeat match goal with
    | Hq : wr _ ?i _ = Some ?q1, E : rd ?q1 ?i = Some _ |- _ =>
        rewrite (rd_wr_eq _ _ _ _ Hq) in E; simplify_eq
    end.
    repeat match goal with
    | Hw : wr _ _ _ = Some _ |- _ =>
        apply wr_Some in Hw as [? ->]; simpl in *
    end.
    rewrite ?length_insert in *.
    split_and!; try done.
    + intros i Hi. destruct (decide (i = v)) as [->|Hne].
      * destruct (Hout v) as [-> ->]; [lia|].
        unfold rd. destruct (Z.ltb_spec v 0); [lia|].
        rewrite !list_lookup_insert_eq by (rewrite ?length_insert; lia).
        done.
      * apply Hin. lia.
    + intros i Hi. destruct (Hout i) as [-> ->]; [lia|].
      unfold rd. destruct (Z.ltb_spec i 0); [done|].
      rewrite !list_lookup_insert_ne by lia. done.
Qed.

Lemma wf_Fill d s u s' : wf s → Fill d s = Ok u s' → wf s'.
Proof.
  intros [Hlq Hlp Hn Huniq Habs]. unfold Fill. intros Hrun.
  step Hrun. apply bind_Ok in Hrun as ([]&s1&Hloop&Hrun).
  step Hrun. apply setNum_Ok in Hrun as ->.
  apply Fill_loop_Ok in Hloop as (Hn'&Hc&Hlq'&Hlp'&Hin&_); [|done].
  assert (∀ i x, vertices
            (mkPQueue (Positions s1) (Queue s1) (Capacity s1) (Capacity s1))
            !! i = Some x → x = Z.of_nat i) as Hvs.
  { intros i x. unfold vertices, occupied; simpl.
    rewrite list_lookup_fmap. intros (e&He&->)%fmap_Some.
    apply lookup_take_Some in He as [He Hi].
    destruct (Hin (Z.of_nat i)) as [Hq _]; [lia|].
    apply rd_Some in Hq as [_ Hq]. rewrite Nat2Z.id in Hq. by simplify_eq. }
  split; simpl; try lia.
  - apply NoDup_alt. intros i j x Hi%Hvs Hj%Hvs. lia.
  - intros w Hw. pose proof (rd_lt _ _ _ Hw).
    destruct (Hin w) as [_ Hp]; [lia|]. rewrite Hp in Hw. simplify_eq; lia.
Qed.

Lemma wf_reachable s : reachable s → wf s.
Proof.
  induction 1 as [N s Hnew|s d s' _ IH Hrun|s v d s' _ IH Hrun
                 |s v s' _ IH Hrun|s b s' _ IH Hrun].
  - by eapply wf_new.
  - by eapply wf_Fill.
  - by eapply wf_Push.
  - by eapply wf_PopMin.
  - by apply Empty_Ok in Hrun as [_ ->].
Qed.

Lemma reachable_do_calls cs s u s' :
  reachable s → do_calls cs s = Ok u s' → reachable s'.
Proof.
  revert s. induction cs as [|c cs IH]; intros s Hs Hrun; simpl in Hrun.
  - by apply ret_Ok in Hrun as [_ ->].
  - apply bind_Ok in Hrun as ([]&s1&Hc&Hrun). apply (IH s1); [|done].
    destruct c as [d|v d| |]; simpl in Hc.
    + by eapply reachable_Fill.
    + by eapply reachable_Push.
    + apply bind_Ok in Hc as (v&s2&Hc&[_ ->]%ret_Ok).
      by eapply reachable_PopMin.
    + apply bind_Ok in Hc as (b&s2&Hc&[_ ->]%ret_Ok).
      by eapply reachable_Empty.
Qed.

(** * Pushing a vertex twice *)

Lemma filter_none {A} (P : A → Prop) `{∀ x, Decision (P x)} (l : list A) :
  (∀ x, x ∈ l → ¬ P x) → filter P l = [].
Proof.
  induction l as [|a l IH]; intros Hl; [done|].
  rewrite filter_cons_False by (apply Hl; left).
  apply IH. intros x Hx. apply Hl. by right.
Qed.

Lemma Push_entries v d s u s' :
  wf s → Push v d s = Ok u s' → entries_of v s' = [mkElem v d].
Proof.
  intros Hwf (s1&Hins&Hs1)%Push_Ok.
  assert (wf s1) as [_ _ _ _ Habs].
  { destruct Hs1 as [->|(position&_&_&Hdel)]; [done|by eapply wf_Delete]. }
  apply Insert_Ok in Hins as (_&Hv&_&_&_&_&_&Hocc&_).
  apply Permutation_singleton_r. unfold entries_of.
  rewrite Hocc, filter_app.
  rewrite filter_cons_True, filter_nil by done.
  replace (filter (λ e, V e = v) (occupied s1)) with (@nil Elem); [done|].
  symmetry. apply filter_none.
  intros e He Heq. apply (Habs v Hv). rewrite <-Heq.
  by apply list_elem_of_fmap_2.
Qed.

(** C5.  In any reachable queue, after [Push(v, d1)] and then
    [Push(v, d2)], both returning normally, the occupied slots hold exactly
    one entry for vertex [v], and its distance is [d2]. *)
Theorem Push_twice_one_entry s v d1 d2 s1 s2 :
  reachable s →
  Push v d1 s = Ok () s1 →
  Push v d2 s1 = Ok () s2 →
  entries_of v s2 = [mkElem v d2].
Proof.
  intros Hs H1 H2. eapply Push_entries; [|exact H2].
  apply wf_reachable. by eapply reachable_Push.
Qed.

(** * Counting pushes and pops *)

Lemma Delete_vertex position s v s' :
  Delete position s = Ok v s' → v ∈ vertices s.
Proof.
  intros (e&_&<-&_&_&_&_&_&_&Hocc&_)%Delete_Ok.
  unfold vertices. rewrite Hocc. left.
Qed.

(** Pushing a vertex that is not in the queue adds one entry. *)
Lemma Push_fresh v d s u s' :
  v ∉ vertices s → Push v d s = Ok u s' →
  NumElements s' = NumElements s + 1 ∧ vertices s' ≡ₚ vertices s ++ [v].
Proof.
  intros Hv (s1&Hins&[->|(position&_&_&Hdel)])%Push_Ok.
  - apply Insert_Ok in Hins as (_&_&_&Hn&_&_&_&Hocc&_).
    split; [done|]. unfold vertices. by rewrite Hocc, fmap_app.
  - by apply Delete_vertex in Hdel.
Qed.

Lemma Push_all_fresh pushes s u s' :
  NoDup pushes.*1 → (∀ v, v ∈ pushes.*1 → v ∉ vertices s) →
  Push_all pushes s = Ok u s' →
  NumElements s' = NumElements s + Z.of_nat (length pushes).
Proof.
  revert s. induction pushes as [|[v d] pushes IH]; intros s Hnd Hfresh Hrun;
    simpl in Hrun.
  - apply ret_Ok in Hrun as [_ ->]. simpl. lia.
  - apply bind_Ok in Hrun as ([]&s1&Hpush&Hrun).
    apply NoDup_cons in Hnd as [Hv Hnd].
    apply Push_fresh in Hpush as [Hn Hvs]; [|apply Hfresh; left].
    apply IH in Hrun; [simpl length; lia|done|].
    intros w Hw. rewrite Hvs.
    intros [?| ->%list_elem_of_singleton]%elem_of_app; [|done].
    apply (Hfresh w); [by right|done].
Qed.

Lemma PopMin_times_count m s vs s' :
  PopMin_times m s = Ok vs s' →
  NumElements s' = NumElements s - Z.of_nat m.
Proof.
  revert s vs. induction m as [|m IH]; intros s vs Hrun; simpl in Hrun.
  - apply ret_Ok in Hrun as [_ ->]. lia.
  - apply bind_Ok in Hrun as (v&s1&[_ Hdel]%PopMin_Ok&Hrun).
    apply bind_Ok in Hrun as (vs'&s2&Hrun&[_ ->]%ret_Ok).
    apply IH in Hrun.
    apply Delete_Ok in Hdel as (_&_&_&_&_&Hn&_). lia.
Qed.

(** C8.  After [k] pushes of pairwise distinct vertices into a fresh queue
    and then [m] calls of [PopMin], [m ≤ k], all returning normally,
    [Empty] returns true exactly when [k = m]. *)
Theorem Empty_after_pushes_and_pops N s0 pushes s1 m vs s2 :
  PQueue_new N = inr s0 →
  NoDup pushes.*1 →
  Push_all pushes s0 = Ok () s1 →
  PopMin_times m s1 = Ok vs s2 →
  (m ≤ length pushes)%nat →
  ∃ b, Empty s2 = Ok b s2 ∧ (b = true ↔ length pushes = m).
Proof.
  intros Hnew Hnd Hpush Hpop Hm.
  apply Push_all_fresh in Hpush; [|done|]; last first.
  { intros v _. unfold PQueue_new in Hnew.
    destruct (N <? 0); [done|]. injection Hnew as <-.
    unfold vertices, occupied; simpl. apply not_elem_of_nil. }
  apply PopMin_times_count in Hpop.
  assert (NumElements s0 = 0) as Hn0.
  { unfold PQueue_new in Hnew. destruct (N <? 0); [done|].
    by injection Hnew as <-. }
  exists (NumElements s2 =? 0). split; [by apply Empty_Ok|].
  rewrite Z.eqb_eq. lia.
Qed.

(** * Construction *)

(** C6.  Construction fails exactly when the capacity is negative; for a
    capacity [N ≥ 0] it yields a queue with no elements and [N] positions,
    all of them -1. *)
Theorem PQueue_new_spec N :
  ((∃ e, PQueue_new N = inl e) ↔ N < 0) ∧
  (0 ≤ N → ∃ s, PQueue_new N = inr s ∧
     NumElements s = 0 ∧ Capacity s = N ∧ occupied s = [] ∧
     Z.of_nat (length (Positions s)) = N ∧
     Z.of_nat (length (Queue s)) = N ∧
     ∀ v, 0 ≤ v < N → rd (Positions s) v = Some (-1)).
Proof.
  unfold PQueue_new. destruct (Z.ltb_spec N 0) as [Hneg|Hpos].
  - split; [|lia]. split; [done|]. eauto.
  - split; [split; [by intros [e ?]|lia]|]. intros _.
    eexists. split; [done|]. simpl. rewrite !length_replicate.
    split_and!; try done; try lia.
    intros v Hv. apply rd_Some. split; [lia|].
    apply lookup_replicate_2. lia.
Qed.

(** * Push with a vertex out of range *)

(** C7.  [Push] with a vertex outside [0, Capacity) throws and leaves
    the queue as it was. *)
Theorem Push_out_of_range s vertex distance :
  ¬ (0 ≤ vertex < Capacity s) →
  Push vertex distance s =
  Throw (logic_error "Invalid vertex passed to PQueue::Push, must be 0..N-1")
        s.
Proof.
  intros Hv. unfold Push, bind, getCap; simpl.
  destruct (Z.ltb_spec vertex 0), (Z.geb_spec vertex (Capacity s));
    simpl; try done. lia.
Qed.

(** * Termination *)

Lemma bind_OutOfFuel {A B} (m : M A) (k : A → M B) s :
  bind m k s = OutOfFuel ↔
  m s = OutOfFuel ∨ ∃ a s1, m s = Ok a s1 ∧ k a s1 = OutOfFuel.
Proof.
  unfold bind. destruct (m s) as [a s1| | |]; split;
    try done; eauto; try (by intros [?|(?&?&?&?)]).
  intros [?|(?&?&[= <- <-]&?)]; done.
Qed.

Lemma terminates_bind {A B} (m : M A) (k : A → M B) :
  terminates m → (∀ a, terminates (k a)) → terminates (bind m k).
Proof.
  intros Hm Hk s [?|(a&s1&_&?)]%bind_OutOfFuel; [by eapply Hm|by eapply Hk].
Qed.

Lemma terminates_ret {A} (a : A) : terminates (ret a).
Proof. done. Qed.
Lemma terminates_throw {A} e : terminates (@throw A e).
Proof. done. Qed.
Lemma terminates_getQ i : terminates (getQ i).
Proof. intros s. unfold getQ. by destruct (rd _ _). Qed.
Lemma terminates_setQ i e : terminates (setQ i e).
Proof. intros s. unfold setQ. by destruct (wr _ _ _). Qed.
Lemma terminates_getP v : terminates (getP v).
Proof. intros s. unfold getP. by destruct (rd _ _). Qed.
Lemma terminates_setP v p : terminates (setP v p).
Proof. intros s. unfold setP. by destruct (wr _ _ _). Qed.
Lemma terminates_getNum : terminates getNum.
Proof. done. Qed.
Lemma terminates_setNum n : terminates (setNum n).
Proof. done. Qed.
Lemma terminates_getCap : terminates getCap.
Proof. done. Qed.

Create HintDb terminates.
Hint Resolve terminates_ret terminates_throw terminates_getQ terminates_setQ
  terminates_getP terminates_setP terminates_getNum terminates_setNum
  terminates_getCap : terminates.

(** Calls built from terminating calls by sequencing and branching. *)
Ltac terminates_auto :=
  cbv zeta;
  repeat first
    [ progress eauto with terminates
    | apply terminates_bind
    | match goal with
      | |- ∀ _, _ => intro
      | |- terminates (if ?b then _ else _) => destruct b
      | |- terminates (match ?o with Some _ => _ | None => _ end) =>
          destruct o
      end ].

Lemma terminates_setV i v : terminates (setV i v).
Proof. unfold setV. terminates_auto. Qed.
Lemma terminates_setD i d : terminates (setD i d).
Proof. unfold setD. terminates_auto. Qed.
Lemma terminates_Empty : terminates Empty.
Proof. unfold Empty. terminates_auto. Qed.
Lemma terminates_getSmallerChild position :
  terminates (getSmallerChild position).
Proof. unfold getSmallerChild. terminates_auto. Qed.
Hint Resolve terminates_setV terminates_setD terminates_Empty
  terminates_getSmallerChild : terminates.

Lemma terminates_inCorrectSpotwithRespectToParent position :
  terminates (inCorrectSpotwithRespectToParent position).
Proof. unfold inCorrectSpotwithRespectToParent. terminates_auto. Qed.
Lemma terminates_inCorrectSpotwithRespectToChild position :
  terminates (inCorrectSpotwithRespectToChild position).
Proof. unfold inCorrectSpotwithRespectToChild. terminates_auto. Qed.
Hint Resolve terminates_inCorrectSpotwithRespectToParent
  terminates_inCorrectSpotwithRespectToChild : terminates.

Lemma terminates_Fill_loop n v d : terminates (Fill_loop n v d).
Proof. revert v. induction n; intros v; simpl; terminates_auto. Qed.
Hint Resolve terminates_Fill_loop : terminates.

(** One call of a run that exhausts its budget: the call itself returned. *)
Ltac fuel_step H :=
  let H1 := fresh "Hstep" in
  apply bind_OutOfFuel in H as [H|(?&?&H1&H)];
  [ exfalso; revert H;
    first [ apply terminates_getQ | apply terminates_setQ
          | apply terminates_getP | apply terminates_setP
          | apply terminates_getNum | apply terminates_setNum
          | apply terminates_getCap ]
  | first
    [ apply getQ_Ok in H1 as [H1 ->]
    | apply getP_Ok in H1 as [H1 ->]
    | apply getNum_Ok in H1 as [-> ->]
    | apply getCap_Ok in H1 as [-> ->]
    | apply setQ_Ok in H1 as (?&H1&->)
    | apply setP_Ok in H1 as (?&H1&->)
    | apply setNum_Ok in H1 as -> ];
    simpl in H ].

(** [shiftUp]: the budget [position + 1] is never used up.  At slot 0 the
    parent is slot 0 itself and no distance is below itself, so the root
    case makes no recursive call. *)
Lemma shiftUp_rec_terminates fuel position s :
  (Z.to_nat position < fuel)%nat →
  shiftUp_rec fuel position s ≠ OutOfFuel.
Proof.
  revert position s. induction fuel as [|fuel IH]; intros position s Hfuel Hrun;
    [lia|].
  simpl in Hrun. do 2 fuel_step Hrun.
  destruct (dge _ _) in Hrun; [done|].
  do 2 fuel_step Hrun.
  destruct (dlt _ _) eqn:Elt in Hrun; [|done].
  do 8 fuel_step Hrun.
  revert Hrun. apply IH.
  repeat match goal with
  | H1 : ?x = Some ?a, H2 : ?x = Some ?b |- _ =>
      assert (a = b) as -> by congruence; clear H2
  end.
  match goal with
  | He : rd (Queue s) position = Some _ |- _ => pose proof (rd_lt _ _ _ He)
  end.
  destruct (decide (position = 0)) as [->|].
  - change (getParentIndex 0) with 0 in *.
    repeat match goal with
    | H1 : ?x = Some ?a, H2 : ?x = Some ?b |- _ =>
        assert (a = b) as -> by congruence; clear H2
    end.
    by rewrite dlt_irrefl in Elt.
  - pose proof (getParentIndex_lt position). lia.
Qed.

Lemma terminates_shiftUp position : terminates (shiftUp position).
Proof. intros s. unfold shiftUp. apply shiftUp_rec_terminates. lia. Qed.

(** [shiftDown]: the child chosen lies strictly between the slot and
    [NumElements], so the budget [NumElements - position + 1] is never used
    up. *)
Lemma shiftDown_rec_terminates fuel position s :
  (Z.to_nat (NumElements s - position) < fuel)%nat →
  shiftDown_rec fuel position s ≠ OutOfFuel.
Proof.
  revert position s. induction fuel as [|fuel IH]; intros position s Hfuel Hrun;
    [lia|].
  simpl in Hrun. fuel_step Hrun.
  apply bind_OutOfFuel in Hrun as [Hrun|(minIndex&s1&Hmin&Hrun)].
  { destruct (_ >=? _) in Hrun.
    - fuel_step Hrun. by destruct (_ >=? _) in Hrun.
    - apply bind_OutOfFuel in Hrun as [Hrun|(?&?&?&Hrun)]; [|done].
      by apply terminates_getSmallerChild in Hrun. }
  assert (s1 = s ∧ ∀ m, minIndex = Some m →
            position * 2 + 1 ≤ m < NumElements s) as [-> Hm].
  { clear Hrun. unfold getLeftChildIndex, getRightChildIndex in Hmin.
    destruct (_ >=? _) eqn:Er in Hmin.
    - inv_ok; (split; [done|]); intros m ?; simplify_eq. lia.
    - inv_ok.
      match goal with
      | Hc : getSmallerChild _ _ = Ok _ _ |- _ =>
          apply getSmallerChild_Ok in Hc as (->&Hc&_)
      end.
      split; [done|]. intros m ?; simplify_eq. lia. }
  clear Hmin. destruct minIndex as [m|]; [|done].
  specialize (Hm m eq_refl).
  do 2 fuel_step Hrun.
  destruct (dgt _ _) in Hrun; [|done].
  do 6 fuel_step Hrun.
  revert Hrun. apply IH. simpl.
  match goal with
  | He : rd (Queue s) position = Some _ |- _ => pose proof (rd_lt _ _ _ He)
  end.
  lia.
Qed.

Lemma terminates_shiftDown position : terminates (shiftDown position).
Proof.
  intros s. unfold shiftDown, bind, getNum.
  apply shiftDown_rec_terminates. lia.
Qed.

Hint Resolve terminates_shiftUp terminates_shiftDown : terminates.

Lemma terminates_swap position : terminates (swap position).
Proof. unfold swap. terminates_auto. Qed.
Hint Resolve terminates_swap : terminates.

Lemma terminates_Insert v d : terminates (Insert v d).
Proof. unfold Insert. terminates_auto. Qed.

Lemma terminates_Delete position : terminates (Delete position).
Proof. unfold Delete. terminates_auto. Qed.
Hint Resolve terminates_Insert terminates_Delete : terminates.

Lemma terminates_Push v d : terminates (Push v d).
Proof. unfold Push. terminates_auto. Qed.

Lemma terminates_PopMin : terminates PopMin.
Proof. unfold PopMin. terminates_auto. Qed.

Lemma terminates_Fill d : terminates (Fill d).
Proof. unfold Fill. terminates_auto. Qed.

(** C9.  Every public call comes to an end, in every queue and for every
    argument, and so do the two recursive procedures from every slot:
    their recursion budget is never used up.  At slot 0, [shiftUp] returns
    without a recursive call. *)
Theorem public_calls_terminate :
  (∀ v d, terminates (Push v d)) ∧
  terminates PopMin ∧
  (∀ d, terminates (Fill d)) ∧
  terminates Empty ∧
  (∀ position, terminates (shiftUp position)) ∧
  (∀ position, terminates (shiftDown position)) ∧
  (∀ fuel position s,
     (Z.to_nat position < fuel)%nat →
     shiftUp_rec fuel position s ≠ OutOfFuel) ∧
  (∀ fuel position s,
     (Z.to_nat (NumElements s - position) < fuel)%nat →
     shiftDown_rec fuel position s ≠ OutOfFuel) ∧
  (∀ s, shiftUp_rec 1 0 s ≠ OutOfFuel).
Proof.
  split_and!.
  - apply terminates_Push.
  - apply terminates_PopMin.
  - apply terminates_Fill.
  - apply terminates_Empty.
  - apply terminates_shiftUp.
  - apply terminates_shiftDown.
  - apply shiftUp_rec_terminates.
  - apply shiftDown_rec_terminates.
  - intros s. apply shiftUp_rec_terminates. simpl. lia.
Qed.

(** * Exceptions *)

Lemma bind_Throw {A B} (m : M A) (k : A → M B) s e s' :
  bind m k s = Throw e s' ↔
  m s = Throw e s' ∨ ∃ a s1, m s = Ok a s1 ∧ k a s1 = Throw e s'.
Proof.
  unfold bind. destruct (m s) as [a s1|e1 s1| |].
  - split; [eauto|]. intros [?|(?&?&[= <- <-]&?)]; done.
  - split; [intros [= -> ->]; by left|].
    by intros [[= -> ->]|(?&?&?&?)].
  - split; [done|]. by intros [?|(?&?&?&?)].
  - split; [done|]. by intros [?|(?&?&?&?)].
Qed.

Lemma never_throws_bind {A B} (m : M A) (k : A → M B) :
  never_throws m → (∀ a, never_throws (k a)) → never_throws (bind m k).
Proof.
  intros Hm Hk s e s' [?|(a&s1&_&?)]%bind_Throw;
    [by eapply Hm|by eapply Hk].
Qed.

Lemma never_throws_ret {A} (a : A) : never_throws (ret a).
Proof. done. Qed.
Lemma never_throws_getQ i : never_throws (getQ i).
Proof. intros s e s'. unfold getQ. by destruct (rd _ _). Qed.
Lemma never_throws_setQ i x : never_throws (setQ i x).
Proof. intros s e s'. unfold setQ. by destruct (wr _ _ _). Qed.
Lemma never_throws_getP v : never_throws (getP v).
Proof. intros s e s'. unfold getP. by destruct (rd _ _). Qed.
Lemma never_throws_setP v p : never_throws (setP v p).
Proof. intros s e s'. unfold setP. by destruct (wr _ _ _). Qed.
Lemma never_throws_getNum : never_throws getNum.
Proof. done. Qed.
Lemma never_throws_setNum n : never_throws (setNum n).
Proof. done. Qed.
Lemma never_throws_getCap : never_throws getCap.
Proof. done. Qed.

Create HintDb never_throws.
Hint Resolve never_throws_ret never_throws_getQ never_throws_setQ
  never_throws_getP never_throws_setP never_throws_getNum
  never_throws_setNum never_throws_getCap : never_throws.

Ltac never_throws_auto :=
  cbv zeta;
  repeat first
    [ progress eauto with never_throws
    | apply never_throws_bind
    | match goal with
      | |- ∀ _, _ => intro
      | |- never_throws (if ?b then _ else _) => destruct b
      | |- never_throws (match ?o with Some _ => _ | None => _ end) =>
          destruct o
      end ].

Lemma never_throws_setV i v : never_throws (setV i v).
Proof. unfold setV. never_throws_auto. Qed.
Lemma never_throws_setD i d : never_throws (setD i d).
Proof. unfold setD. never_throws_auto. Qed.
Lemma never_throws_Empty : never_throws Empty.
Proof. unfold Empty. never_throws_auto. Qed.
Lemma never_throws_getSmallerChild position :
  never_throws (getSmallerChild position).
Proof. unfold getSmallerChild. never_throws_auto. Qed.
Hint Resolve never_throws_setV never_throws_setD never_throws_Empty
  never_throws_getSmallerChild : never_throws.

Lemma never_throws_inCorrectSpotwithRespectToParent position :
  never_throws (inCorrectSpotwithRespectToParent position).
Proof. unfold inCorrectSpotwithRespectToParent. never_throws_auto. Qed.
Lemma never_throws_inCorrectSpotwithRespectToChild position :
  never_throws (inCorrectSpotwithRespectToChild position).
Proof. unfold inCorrectSpotwithRespectToChild. never_throws_auto. Qed.
Hint Resolve never_throws_inCorrectSpotwithRespectToParent
  never_throws_inCorrectSpotwithRespectToChild : never_throws.

Lemma never_throws_shiftUp_rec fuel position :
  never_throws (shiftUp_rec fuel position).
Proof.
  revert position. induction fuel as [|fuel IH]; intros position; [done|].
  simpl. never_throws_auto.
Qed.

Lemma never_throws_shiftDown_rec fuel position :
  never_throws (shiftDown_rec fuel position).
Proof.
  revert position. induction fuel as [|fuel IH]; intros position; [done|].
  simpl. never_throws_auto.
Qed.

Lemma never_throws_shiftUp position : never_throws (shiftUp position).
Proof. apply never_throws_shiftUp_rec. Qed.
Lemma never_throws_shiftDown position : never_throws (shiftDown position).
Proof.
  unfold shiftDown. apply never_throws_bind; [done|].
  intros n. apply never_throws_shiftDown_rec.
Qed.
Hint Resolve never_throws_shiftUp never_throws_shiftDown : never_throws.

Lemma never_throws_swap position : never_throws (swap position).
Proof. unfold swap. never_throws_auto. Qed.
Hint Resolve never_throws_swap : never_throws.

Lemma never_throws_Fill_loop n v d : never_throws (Fill_loop n v d).
Proof. revert v. induction n; intros v; simpl; never_throws_auto. Qed.
Hint Resolve never_throws_Fill_loop : never_throws.

(** [Delete] throws only from its two checks, before any write. *)
Lemma Delete_Throw position s e s' :
  Delete position s = Throw e s' →
  s' = s ∧ ¬ (0 ≤ position < NumElements s).
Proof.
  unfold Delete, Empty. intros Hrun.
  apply bind_Throw in Hrun as [Hrun|(empty&s0&Hempty&Hrun)].
  { exfalso. revert Hrun. apply never_throws_Empty. }
  step Hempty. apply ret_Ok in Hempty as [-> ->].
  destruct (Z.eqb_spec (NumElements s) 0) as [E0|E0].
  { injection Hrun as _ <-. split; [done|lia]. }
  apply bind_Throw in Hrun as [Hrun|(n&s0&[-> ->]%getNum_Ok&Hrun)]; [done|].
  destruct (_ || _) eqn:Erange in Hrun.
  { injection Hrun as _ <-. split; [done|].
    apply orb_true_iff in Erange as [?%Z.ltb_lt|E2]; [lia|].
    rewrite Z.geb_leb in E2. apply Z.leb_le in E2. lia. }
  exfalso. revert Hrun. apply never_throws_bind; never_throws_auto.
Qed.

(** X1.  In a reachable queue, [PopMin] throws exactly when the queue is
    empty; the exception is "stack empty!" and the queue is left as it
    was. *)
Theorem PopMin_throws_iff_empty s e s' :
  reachable s →
  PopMin s = Throw e s' ↔
  NumElements s = 0 ∧ e = logic_error "stack empty!" ∧ s' = s.
Proof.
  intros [_ _ Hn _ _]%wf_reachable. unfold PopMin, Empty. split.
  - intros [Hrun|(empty&s0&Hempty&Hrun)]%bind_Throw.
    { exfalso. revert Hrun. apply never_throws_Empty. }
    step Hempty. apply ret_Ok in Hempty as [-> ->].
    destruct (Z.eqb_spec (NumElements s) 0) as [E0|E0].
    + by injection Hrun as <- <-.
    + apply Delete_Throw in Hrun as [_ Hrange]. lia.
  - intros (E0&->&->). unfold bind, getNum, ret. by rewrite E0.
Qed.

(** X2.  Every reachable queue has both arrays of length [Capacity], a
    count between 0 and [Capacity], no vertex in two occupied slots, and no
    occupied slot for a vertex whose position is -1. *)
Theorem reachable_invariants s :
  reachable s →
  Z.of_nat (length (Queue s)) = Capacity s ∧
  Z.of_nat (length (Positions s)) = Capacity s ∧
  0 ≤ NumElements s ≤ Capacity s ∧
  NoDup (vertices s) ∧
  (∀ w, rd (Positions s) w = Some (-1) → w ∉ vertices s).
Proof. by intros []%wf_reachable. Qed.

Lemma filter_all {A} (P : A → Prop) `{∀ x, Decision (P x)} (l : list A) :
  (∀ x, x ∈ l → P x) → filter P l = l.
Proof.
  induction l as [|a l IH]; intros Hl; [done|].
  rewrite filter_cons_True by (apply Hl; left).
  f_equal. apply IH. intros x Hx. apply Hl. by right.
Qed.

Lemma filter_other_vertices (l : list Elem) v :
  v ∉ V <$> l → filter (λ e, V e ≠ v) l = l.
Proof.
  intros Hv. apply filter_all. intros e He Heq.
  apply Hv. rewrite <-Heq. by apply list_elem_of_fmap_2.
Qed.

(** X4.  In a reachable queue a successful [Push(v, d)] keeps the entries
    of all other vertices, drops the entry of [v] if there was one, and
    adds [(v, d)]. *)
Theorem Push_replaces_entry s v d s' :
  reachable s →
  Push v d s = Ok () s' →
  occupied s' ≡ₚ filter (λ e, V e ≠ v) (occupied s) ++ [mkElem v d].
Proof.
  intros Hwf%wf_reachable (s1&Hins&Hs1)%Push_Ok.
  assert (wf s1) as [_ _ _ _ Habs1].
  { destruct Hs1 as [->|(position&_&_&Hdel)]; [done|by eapply wf_Delete]. }
  apply Insert_Ok in Hins as (_&Hv&_&_&_&_&_&Hocc&_).
  rewrite Hocc. f_equiv.
  destruct Hs1 as [->|(position&_&_&Hdel)].
  - rewrite filter_other_vertices; [done|]. by apply Habs1.
  - apply Delete_Ok in Hdel as (e&_&HV&_&_&_&_&_&_&Hocc1&_).
    rewrite Hocc1, filter_cons_False by (intros Hne; by apply Hne).
    rewrite filter_other_vertices; [done|]. by apply Habs1.
Qed.

(** X5.  A successful [PopMin] returns the vertex of slot 0 and removes
    that entry and no other. *)
Theorem PopMin_removes_root s v s' :
  PopMin s = Ok v s' →
  ∃ e, rd (Queue s) 0 = Some e ∧ V e = v ∧
       occupied s ≡ₚ e :: occupied s' ∧
       NumElements s' = NumElements s - 1.
Proof.
  intros [_ (e&He&HV&_&_&Hn&_&_&_&Hocc&_)%Delete_Ok]%PopMin_Ok.
  by exists e.
Qed.

(** * The structure of a successful Insert and Delete *)

Lemma wr_wr_eq {A} (l l1 l2 : list A) i x y :
  wr l i x = Some l1 → wr l1 i y = Some l2 → wr l i y = Some l2.
Proof.
  intros [? ->]%wr_Some [? ->]%wr_Some. apply wr_Some.
  split; [done|]. by rewrite list_insert_insert_eq.
Qed.

(** [Insert] stores the pair in slot [NumElements], records the position
    and sifts the slot up; the test it makes before calling [shiftUp] is
    the one [shiftUp] makes first. *)
Lemma Insert_inv v d s u s' :
  Insert v d s = Ok u s' →
  (0 ≤ v < Capacity s) ∧ rd (Positions s) v = Some (-1) ∧
  ∃ q ps,
    wr (Queue s) (NumElements s) (mkElem v d) = Some q ∧
    wr (Positions s) v (NumElements s) = Some ps ∧
    shiftUp (NumElements s)
      (mkPQueue ps q (NumElements s + 1) (Capacity s)) = Ok () s'.
Proof.
  unfold Insert. intros Hrun. step Hrun.
  destruct (_ || _) eqn:Erange in Hrun; [done|].
  apply orb_false_iff in Erange as [?%Z.ltb_ge E2].
  rewrite Z.geb_leb in E2. apply Z.leb_gt in E2.
  apply bind_Ok in Hrun as (p&s0&[Hp ->]%getP_Ok&Hrun).
  destruct (negb _) eqn:Ep in Hrun; [done|].
  apply negb_false_iff, Z.eqb_eq in Ep as ->.
  step Hrun. apply bind_Ok in Hrun as (?&?&(q&Hq&->)%setQ_Ok&Hrun).
  step Hrun. apply bind_Ok in Hrun as (?&?&(ps&Hps&->)%setP_Ok&Hrun).
  do 3 step Hrun. simpl in *.
  apply bind_Ok in Hrun as (e&?&[He ->]%getQ_Ok&Hrun).
  apply bind_Ok in Hrun as (e'&?&[He' ->]%getQ_Ok&Hrun).
  simpl in *. replace (NumElements s + 1 - 1) with (NumElements s) in * by lia.
  split; [lia|]. split; [done|]. exists q, ps. split_and!; [done..|].
  destruct u. destruct (dlt (D e) (D e')) eqn:Elt; [done|].
  apply ret_Ok in Hrun as [_ ->].
  unfold shiftUp. simpl. unfold bind, getQ; simpl.
  rewrite He; simpl. rewrite He'; simpl.
  destruct (dge _ _); [done|]. simpl.
  rewrite He; simpl. rewrite He'; simpl. by rewrite Elt.
Qed.

(** [Delete] either clears the last occupied slot, or moves the last entry
    into the slot, clears the last slot and then, unless it finds the
    moved entry in place, calls [swap]. *)
Lemma Delete_inv position s v s' :
  Delete position s = Ok v s' →
  ∃ e, rd (Queue s) position = Some e ∧ V e = v ∧
    (0 ≤ position < NumElements s) ∧
    ((position = NumElements s - 1 ∧
      ∃ q ps, wr (Queue s) position Elem_default = Some q ∧
              wr (Positions s) v (-1) = Some ps ∧
              s' = mkPQueue ps q (NumElements s - 1) (Capacity s)) ∨
     (position ≠ NumElements s - 1 ∧
      ∃ last q1 q2 ps1 ps2,
        rd (Queue s) (NumElements s - 1) = Some last ∧
        wr (Queue s) position last = Some q1 ∧
        wr q1 (NumElements s - 1) Elem_default = Some q2 ∧
        wr (Positions s) (V last) position = Some ps1 ∧
        wr ps1 v (-1) = Some ps2 ∧
        let s3 := mkPQueue ps2 q2 (NumElements s - 1) (Capacity s) in
        s' = s3 ∨ swap position s3 = Ok () s')).
Proof.
  unfold Delete, Empty. intros Hrun.
  apply bind_Ok in Hrun as (empty&s0&Hempty&Hrun).
  step Hempty. apply ret_Ok in Hempty as [-> ->].
  destruct (_ =? 0) eqn:E0 in Hrun; [done|]. apply Z.eqb_neq in E0.
  step Hrun.
  destruct (_ || _) eqn:Erange in Hrun; [done|].
  apply orb_false_iff in Erange as [?%Z.ltb_ge E2].
  rewrite Z.geb_leb in E2. apply Z.leb_gt in E2.
  step_getQ Hrun as e He. step Hrun.
  exists e. split; [done|].
  destruct (Z.eqb_spec position (NumElements s - 1)) as [Elast|Elast].
  - do 3 step Hrun. step Hrun. step Hrun. apply ret_Ok in Hrun as [-> ->].
    simpl in *. split; [done|]. split; [lia|]. left. split; [done|].
    repeat match goal with
    | Hq : wr _ ?i _ = Some ?q1, E : rd ?q1 ?i = Some _ |- _ =>
        rewrite (rd_wr_eq _ _ _ _ Hq) in E; simplify_eq
    end.
    simpl in *. eexists _, _. split_and!; [|done..].
    by eapply wr_wr_eq.
  - step Hrun.
    destruct (Z.eqb_spec (NumElements s) 1) as [E1|E1]; [lia|].
    do 2 step Hrun. step_getQ Hrun as last Hlast.
    step Hrun. step_getQ Hrun as moved Hmoved. do 4 step Hrun.
    simpl in *.
    repeat match goal with
    | Hq : wr _ ?i _ = Some ?q1, E : rd ?q1 ?i = Some _ |- _ =>
        rewrite (rd_wr_eq _ _ _ _ Hq) in E; simplify_eq
    end.
    simpl in *.
    apply bind_Ok in Hrun as (okParent&s0&->%inCorrectSpotwithRespectToParent_Ok&Hrun).
    apply bind_Ok in Hrun as (inPlace&s1&Hc&Hrun).
    match type of Hc with _ ?st = _ => set (s3 := st) in * end.
    assert (s1 = s3) as ->.
    { destruct okParent.
      - by apply inCorrectSpotwithRespectToChild_Ok in Hc.
      - by apply ret_Ok in Hc as [_ ->]. }
    assert (V e = v ∧ (s' = s3 ∨ swap position s3 = Ok () s')) as [HV Hs'].
    { destruct inPlace.
      - apply ret_Ok in Hrun as [-> ->]. by split; [|left].
      - apply bind_Ok in Hrun as ([]&s2&Hswap&[-> ->]%ret_Ok).
        by split; [|right]. }
    subst v. split; [done|]. split; [lia|]. right. split; [done|].
    eexists moved, _, _, _, _. split_and!; [done|done| |done|done|].
    + by eapply wr_wr_eq.
    + done.
Qed.

(** * One level of the two recursions *)

Ltac same_reads :=
  repeat match goal with
  | Hq : wr _ ?i _ = Some ?q1, E : rd ?q1 ?i = Some _ |- _ =>
      rewrite (rd_wr_eq _ _ _ _ Hq) in E; simplify_eq
  end;
  repeat match goal with
  | H1 : ?x = Some ?a, H2 : ?x = Some ?b |- _ =>
      assert (a = b) as -> by congruence; clear H2
  end.

(** [shiftUp]: either the entry is not below its parent and nothing
    changes, or the two are exchanged, the positions of their vertices
    are updated and the recursion goes on from the parent slot. *)
Lemma shiftUp_rec_step fuel position s u s' :
  shiftUp_rec (S fuel) position s = Ok u s' →
  ∃ e p, rd (Queue s) position = Some e ∧
         rd (Queue s) (getParentIndex position) = Some p ∧
    ((dlt (D e) (D p) = false ∨ dge (D e) (D p) = true) ∧ s' = s ∨
     dlt (D e) (D p) = true ∧
     ∃ q1 q2 ps1 ps2,
       wr (Queue s) (getParentIndex position) e = Some q1 ∧
       wr (Positions s) (V e) (getParentIndex position) = Some ps1 ∧
       wr q1 position p = Some q2 ∧
       wr ps1 (V p) position = Some ps2 ∧
       shiftUp_rec fuel (getParentIndex position)
         (mkPQueue ps2 q2 (NumElements s) (Capacity s)) = Ok u s').
Proof.
  simpl. intros Hrun.
  step_getQ Hrun as e He. step_getQ Hrun as p Hp.
  exists e, p. split; [done|]. split; [done|].
  destruct (dge (D e) (D p)) eqn:Ege.
  { apply ret_Ok in Hrun as [_ ->]. left. by split; [right|]. }
  step_getQ Hrun as e2 He2. step_getQ Hrun as p2 Hp2.
  assert (e2 = e) as -> by congruence. assert (p2 = p) as -> by congruence.
  destruct (dlt (D e) (D p)) eqn:Elt.
  2:{ apply ret_Ok in Hrun as [_ ->]. left. by split; [left|]. }
  step_getQ Hrun as p3 Hp3. step_getQ Hrun as e3 He3.
  assert (e3 = e) as -> by congruence. assert (p3 = p) as -> by congruence.
  apply bind_Ok in Hrun as (?&?&(q1&Hq1&->)%setQ_Ok&Hrun).
  step_getQ Hrun as e4 He4. simpl in He4.
  rewrite (rd_wr_eq _ _ _ _ Hq1) in He4. injection He4 as <-.
  apply bind_Ok in Hrun as (?&?&(ps1&Hps1&->)%setP_Ok&Hrun).
  apply bind_Ok in Hrun as (?&?&(q2&Hq2&->)%setQ_Ok&Hrun).
  step_getQ Hrun as p4 Hp4. simpl in *.
  rewrite (rd_wr_eq _ _ _ _ Hq2) in Hp4. injection Hp4 as <-.
  apply bind_Ok in Hrun as (?&?&(ps2&Hps2&->)%setP_Ok&Hrun). simpl in *.
  right. split; [done|]. exists q1, q2, ps1, ps2. by split_and!.
Qed.

Lemma shiftDown_rec_step fuel position s u s' :
  shiftDown_rec (S fuel) position s = Ok u s' →
  (NumElements s ≤ position * 2 + 1 ∧ s' = s) ∨
  ∃ m e c, shiftDown_child position s m ∧
    rd (Queue s) position = Some e ∧ rd (Queue s) m = Some c ∧
    (dgt (D e) (D c) = false ∧ s' = s ∨
     dgt (D e) (D c) = true ∧
     ∃ q1 q2 ps1 ps2,
       wr (Queue s) m e = Some q1 ∧
       wr (Positions s) position m = Some ps1 ∧
       wr q1 position c = Some q2 ∧
       wr ps1 m position = Some ps2 ∧
       shiftDown_rec fuel m
         (mkPQueue ps2 q2 (NumElements s) (Capacity s)) = Ok u s').
Proof.
  simpl. unfold getLeftChildIndex, getRightChildIndex. intros Hrun.
  step Hrun. apply bind_Ok in Hrun as (minIndex&s1&Hmin&Hrun).
  assert (s1 = s ∧
          match minIndex with
          | None => NumElements s ≤ position * 2 + 1
          | Some m => shiftDown_child position s m
          end) as [-> Hm].
  { clear Hrun. destruct (Z.geb_spec (position * 2 + 2) (NumElements s)).
    - step Hmin.
      destruct (Z.geb_spec (position * 2 + 1) (NumElements s));
        apply ret_Ok in Hmin as [-> ->]; (split; [done|]); [lia|].
      left. lia.
    - apply bind_Ok in Hmin as (m&s2&Hc&[-> ->]%ret_Ok).
      pose proof (getSmallerChild_Ok _ _ _ _ Hc) as (->&_).
      split; [done|]. right. split; [lia|done]. }
  clear Hmin. destruct minIndex as [m|].
  2:{ apply ret_Ok in Hrun as [_ ->]. by left. }
  right. step_getQ Hrun as e He. step_getQ Hrun as c Hc.
  exists m, e, c. split_and!; [done..|].
  destruct (dgt (D e) (D c)) eqn:Egt.
  2:{ apply ret_Ok in Hrun as [_ ->]. by left. }
  step_getQ Hrun as c2 Hc2. step_getQ Hrun as e2 He2.
  assert (e2 = e) as -> by congruence. assert (c2 = c) as -> by congruence.
  apply bind_Ok in Hrun as (?&?&(q1&Hq1&->)%setQ_Ok&Hrun).
  apply bind_Ok in Hrun as (?&?&(ps1&Hps1&->)%setP_Ok&Hrun).
  apply bind_Ok in Hrun as (?&?&(q2&Hq2&->)%setQ_Ok&Hrun).
  apply bind_Ok in Hrun as (?&?&(ps2&Hps2&->)%setP_Ok&Hrun). simpl in *.
  right. split; [done|]. exists q1, q2, ps1, ps2. by split_and!.
Qed.

Lemma shiftDown_child_range position s m :
  shiftDown_child position s m →
  position * 2 + 1 ≤ m ≤ position * 2 + 2 ∧ m < NumElements s.
Proof.
  intros [(?&?&->)|[? (_&[->| ->]&_)%getSmallerChild_Ok]]; lia.
Qed.

(** * The cleared slots and the vertex numbers *)

Lemma exchange_tail {A} n (l q1 q2 : list A) i j a b k :
  wr l i b = Some q1 → wr q1 j a = Some q2 → i < n → j < n → n ≤ k →
  rd q2 k = rd l k.
Proof.
  intros Hq1 Hq2 ???.
  rewrite (rd_wr_ne _ _ _ _ _ Hq2) by lia.
  by rewrite (rd_wr_ne _ _ _ _ _ Hq1) by lia.
Qed.

Lemma shiftUp_rec_tail fuel position s u s' n :
  shiftUp_rec fuel position s = Ok u s' → position < n →
  tail_kept n s s'.
Proof.
  revert position s. induction fuel as [|fuel IH]; intros position s Hrun Hlt;
    [done|].
  apply shiftUp_rec_step in Hrun
    as (e&p&He&Hp&[[_ ->]|(_&q1&q2&ps1&ps2&Hq1&_&Hq2&_&Hrun)]); [done|].
  pose proof (rd_lt _ _ _ He). pose proof (getParentIndex_le position).
  intros k Hk. rewrite (IH _ _ Hrun) by lia. simpl.
  eapply (exchange_tail n); [exact Hq1|exact Hq2|lia..].
Qed.

Lemma shiftDown_rec_tail fuel position s u s' :
  shiftDown_rec fuel position s = Ok u s' →
  tail_kept (NumElements s) s s'.
Proof.
  revert position s. induction fuel as [|fuel IH]; intros position s Hrun;
    [done|].
  apply shiftDown_rec_step in Hrun
    as [[_ ->]|(m&e&c&Hm%shiftDown_child_range&He&Hc&
                [[_ ->]|(_&q1&q2&ps1&ps2&Hq1&_&Hq2&_&Hrun)])]; [done..|].
  pose proof (rd_lt _ _ _ He).
  intros k Hk. rewrite (IH _ _ Hrun) by (simpl; lia). simpl.
  eapply (exchange_tail (NumElements s)); [exact Hq1|exact Hq2|lia..].
Qed.

Lemma swap_tail position s u s' :
  swap position s = Ok u s' → position < NumElements s →
  tail_kept (NumElements s) s s'.
Proof.
  unfold swap. intros Hrun Hlt.
  apply bind_Ok in Hrun as (okParent&s0&Hp&Hrun).
  apply inCorrectSpotwithRespectToParent_Ok in Hp as ->.
  apply bind_Ok in Hrun as ([]&s1&Hup&Hrun).
  apply bind_Ok in Hrun as (okChild&s2&Hc&Hrun).
  apply inCorrectSpotwithRespectToChild_Ok in Hc as ->.
  assert (tail_kept (NumElements s) s s1 ∧ NumElements s1 = NumElements s)
    as [Hs1 Hn1].
  { clear Hrun. destruct okParent; simpl in Hup.
    - by apply ret_Ok in Hup as [_ ->].
    - split; [by eapply shiftUp_rec_tail|].
      by apply shiftUp_sifted in Hup as []. }
  intros k Hk. rewrite <-Hs1 by done.
  destruct okChild; simpl in Hrun.
  - by apply ret_Ok in Hrun as [_ ->].
  - unfold shiftDown in Hrun.
    apply bind_Ok in Hrun as (n&s0&[-> ->]%getNum_Ok&Hrun).
    apply shiftDown_rec_tail in Hrun. apply Hrun. lia.
Qed.

Lemma tidy_new N s : PQueue_new N = inr s → tidy s.
Proof.
  unfold PQueue_new. destruct (Z.ltb_spec N 0); [done|].
  intros [= <-]. split; simpl.
  - intros i Hi. apply rd_Some. split; [lia|].
    apply lookup_replicate_2. lia.
  - unfold occupied; simpl. intros e He. by apply elem_of_nil in He.
Qed.

Lemma tidy_Insert v d s u s' : tidy s → Insert v d s = Ok u s' → tidy s'.
Proof.
  intros [Hcl Hvs] Hrun.
  pose proof (Insert_Ok _ _ _ _ _ Hrun) as (Hv&_&Hn&Hn'&Hcap&_&_&Hocc&_).
  apply Insert_inv in Hrun as (_&_&q&ps&Hq&_&Hup).
  split.
  - intros i Hi. rewrite (shiftUp_rec_tail _ _ _ _ _ (NumElements s + 1) Hup)
      by lia. simpl.
    rewrite (rd_wr_ne _ _ _ _ _ Hq) by lia. apply Hcl. lia.
  - intros e. rewrite Hocc, Hcap.
    intros [?| ->%list_elem_of_singleton]%elem_of_app; [by apply Hvs|done].
Qed.

Lemma tidy_Delete position s v s' :
  tidy s → Delete position s = Ok v s' → tidy s'.
Proof.
  intros [Hcl Hvs] Hrun.
  pose proof (Delete_Ok _ _ _ _ Hrun)
    as (e0&_&_&_&Hlen&Hn'&Hcap&Hlq&_&Hocc&_).
  assert (∀ i, NumElements s ≤ i → rd (Queue s') i = rd (Queue s) i ∨
               Capacity s ≤ i) as Htail.
  { apply Delete_inv in Hrun
      as (e&He&_&Hpos&[(->&q&ps&Hq&_&->)
                      |(Hne&l&q1&q2&ps1&ps2&_&Hq1&Hq2&_&_&Hs')]).
    - intros i Hi. left. simpl. by rewrite (rd_wr_ne _ _ _ _ _ Hq) by lia.
    - intros i Hi. left.
      assert (rd q2 i = rd (Queue s) i) as <-.
      { rewrite (rd_wr_ne _ _ _ _ _ Hq2) by lia.
        by rewrite (rd_wr_ne _ _ _ _ _ Hq1) by lia. }
      destruct Hs' as [->|Hswap]; [done|].
      apply swap_tail in Hswap; [|simpl; lia]. apply Hswap. simpl. lia. }
  assert (rd (Queue s') (NumElements s - 1) = Some Elem_default) as Hlast.
  { apply Delete_inv in Hrun
      as (e&He&_&Hpos&[(->&q&ps&Hq&_&->)
                      |(Hne&l&q1&q2&ps1&ps2&_&Hq1&Hq2&_&_&Hs')]).
    - simpl. by eapply rd_wr_eq.
    - assert (rd q2 (NumElements s - 1) = Some Elem_default) as <-
        by by eapply rd_wr_eq.
      destruct Hs' as [->|Hswap]; [done|].
      apply swap_tail in Hswap; [|simpl; lia]. apply Hswap. simpl. lia. }
  split.
  - intros i Hi. rewrite Hn', Hcap in Hi.
    destruct (decide (i = NumElements s - 1)) as [->|]; [done|].
    destruct (Htail i) as [->|]; [lia| |lia]. apply Hcl. lia.
  - intros e He. rewrite Hcap. apply Hvs. rewrite Hocc. by right.
Qed.

Lemma tidy_Push v d s u s' : tidy s → Push v d s = Ok u s' → tidy s'.
Proof.
  intros Ht (s1&Hins&[->|(position&_&_&Hdel)])%Push_Ok.
  - by eapply tidy_Insert.
  - eapply tidy_Insert; [|done]. by eapply tidy_Delete.
Qed.

Lemma tidy_Fill d s u s' : wf s → Fill d s = Ok u s' → tidy s'.
Proof.
  intros [Hlq Hlp Hn _ _]. unfold Fill. intros Hrun.
  step Hrun. apply bind_Ok in Hrun as ([]&s1&Hloop&Hrun).
  step Hrun. apply setNum_Ok in Hrun as ->.
  apply Fill_loop_Ok in Hloop as (Hn'&Hc&Hlq'&Hlp'&Hin&_); [|done].
  split; simpl; [lia|].
  intros e (i&He)%list_elem_of_lookup. unfold occupied in He; simpl in He.
  apply lookup_take_Some in He as [He Hi].
  destruct (Hin (Z.of_nat i)) as [Hq _]; [lia|].
  apply rd_Some in Hq as [_ Hq]. rewrite Nat2Z.id in Hq.
  simplify_eq. simpl. lia.
Qed.

Lemma tidy_reachable s : reachable s → tidy s.
Proof.
  induction 1 as [N s Hnew|s d s' Hs IH Hrun|s v d s' _ IH Hrun
                 |s v s' _ IH Hrun|s b s' _ IH Hrun].
  - by eapply tidy_new.
  - eapply tidy_Fill; [|done]. by apply wf_reachable.
  - by eapply tidy_Push.
  - apply PopMin_Ok in Hrun as [_ Hdel]. by eapply tidy_Delete.
  - by apply Empty_Ok in Hrun as [_ ->].
Qed.

(** X3.  In every reachable queue the slots from [NumElements] up to the
    capacity hold the cleared element (-1, -1.0), and every occupied slot
    holds a vertex number, between 0 and the capacity. *)
Theorem reachable_tidy s :
  reachable s →
  (∀ i, NumElements s ≤ i < Capacity s →
        rd (Queue s) i = Some Elem_default) ∧
  (∀ e, e ∈ occupied s → 0 ≤ V e < Capacity s).
Proof. by intros []%tidy_reachable. Qed.

(** * Running calls forward *)

Lemma rd_is_Some {A} (l : list A) i :
  0 ≤ i < Z.of_nat (length l) → is_Some (rd l i).
Proof.
  intros Hi. unfold rd. destruct (Z.ltb_spec i 0); [lia|].
  apply lookup_lt_is_Some. lia.
Qed.

Lemma wr_in_range {A} (l : list A) i x :
  0 ≤ i < Z.of_nat (length l) → wr l i x = Some (<[Z.to_nat i := x]> l).
Proof. intros Hi. by apply wr_Some. Qed.

Lemma rd_ext {A} (l k : list A) :
  (∀ i, 0 ≤ i → rd l i = rd k i) → l = k.
Proof.
  intros Hlk. apply list_eq. intros i.
  specialize (Hlk (Z.of_nat i)). unfold rd in Hlk.
  destruct (Z.ltb_spec (Z.of_nat i) 0); [lia|].
  rewrite Nat2Z.id in Hlk. apply Hlk. lia.
Qed.

Lemma bind_run {A B} (m : M A) (k : A → M B) s a s1 :
  m s = Ok a s1 → bind m k s = k a s1.
Proof. unfold bind. by intros ->. Qed.

Lemma setV_run i v s e :
  rd (Queue s) i = Some e →
  setV i v s =
  Ok () (mkPQueue (Positions s) (<[Z.to_nat i := mkElem v (D e)]> (Queue s))
                  (NumElements s) (Capacity s)).
Proof.
  intros He. apply setV_Ok. exists e. eexists. split; [done|].
  split; [|done]. apply wr_in_range. by eapply rd_lt.
Qed.

Lemma setD_run i d s e :
  rd (Queue s) i = Some e →
  setD i d s =
  Ok () (mkPQueue (Positions s) (<[Z.to_nat i := mkElem (V e) d]> (Queue s))
                  (NumElements s) (Capacity s)).
Proof.
  intros He. apply setD_Ok. exists e. eexists. split; [done|].
  split; [|done]. apply wr_in_range. by eapply rd_lt.
Qed.

Lemma setP_run v p s :
  0 ≤ v < Z.of_nat (length (Positions s)) →
  setP v p s =
  Ok () (mkPQueue (<[Z.to_nat v := p]> (Positions s)) (Queue s)
                  (NumElements s) (Capacity s)).
Proof. intros Hv. apply setP_Ok. eexists. by rewrite wr_in_range. Qed.

Lemma Fill_loop_succeeds n v d s :
  0 ≤ v →
  v + Z.of_nat n ≤ Z.of_nat (length (Queue s)) →
  v + Z.of_nat n ≤ Z.of_nat (length (Positions s)) →
  ∃ s', Fill_loop n v d s = Ok () s'.
Proof.
  revert v s. induction n as [|n IH]; intros v s Hv Hq Hp; simpl.
  - by eexists.
  - destruct (rd_is_Some (Queue s) v) as [e He]; [lia|].
    rewrite (bind_run _ _ _ _ _ (setV_run _ v _ _ He)).
    assert (0 ≤ v < Z.of_nat (length (Queue s))) by lia.
    erewrite bind_run; last first.
    { apply setD_run. simpl. apply rd_Some. split; [lia|].
      apply list_lookup_insert_eq. lia. }
    erewrite bind_run; last first.
    { apply setP_run. simpl. lia. }
    apply IH; simpl; rewrite ?length_insert; lia.
Qed.

Lemma Fill_filled d s :
  wf s → Fill d s = Ok () (filled (Capacity s) d).
Proof.
  intros [Hlq Hlp Hn _ _]. unfold Fill.
  rewrite (bind_run _ _ _ _ _ (proj2 (getCap_Ok s _ s) (conj eq_refl eq_refl))).
  destruct (Fill_loop_succeeds (Z.to_nat (Capacity s)) 0 d s) as [s1 Hloop];
    [lia..|].
  rewrite (bind_run _ _ _ _ _ Hloop).
  apply Fill_loop_Ok in Hloop as (Hn'&Hc&Hlq'&Hlp'&Hin&_); [|done].
  unfold bind, getCap, setNum, filled. rewrite Hc. do 2 f_equal.
  destruct s1 as [ps q n c]; simpl in *. f_equal.
  - apply rd_ext. intros i Hi.
    destruct (decide (i < Capacity s)) as [Hlt|Hge].
    + destruct (Hin i) as [_ ->]; [lia|]. symmetry. apply rd_Some.
      split; [done|]. rewrite lookup_seqZ_lt by lia. f_equal. lia.
    + unfold rd. destruct (Z.ltb_spec i 0); [done|].
      rewrite lookup_seqZ_ge by lia. apply lookup_ge_None. lia.
  - apply rd_ext. intros i Hi.
    destruct (decide (i < Capacity s)) as [Hlt|Hge].
    + destruct (Hin i) as [-> _]; [lia|]. symmetry. apply rd_Some.
      split; [done|]. rewrite list_lookup_fmap, lookup_seqZ_lt by lia.
      simpl. do 2 f_equal. lia.
    + unfold rd. destruct (Z.ltb_spec i 0); [done|].
      rewrite list_lookup_fmap, lookup_seqZ_ge by lia.
      apply lookup_ge_None. lia.
Qed.

Lemma bijection_filled N d : bijection (filled N d).
Proof.
  unfold bijection, filled; simpl. split.
  - intros v i [? Hv]%rd_Some _. apply lookup_seqZ in Hv as [-> ?].
    split; [lia|]. exists (mkElem v d). split; [|done].
    apply rd_Some. split; [lia|].
    rewrite list_lookup_fmap, lookup_seqZ_lt by lia. simpl.
    do 2 f_equal. lia.
  - intros i e Hi [_ He]%rd_Some. rewrite list_lookup_fmap in He.
    apply fmap_Some in He as (v&[-> ?]%lookup_seqZ&->). simpl.
    apply rd_Some. split; [lia|].
    replace (0 + Z.of_nat (Z.to_nat i)) with i by lia.
    rewrite lookup_seqZ_lt by lia. f_equal. lia.
Qed.

(** X6.  In a reachable queue [Fill(d)] always returns normally, whatever
    the queue held: afterwards slot [v] holds [(v, d)] and vertex [v] has
    position [v], for every vertex, the count is the capacity, and
    positions and slots correspond (I2). *)
Theorem Fill_result s d :
  reachable s →
  Fill d s = Ok () (filled (Capacity s) d) ∧
  bijection (filled (Capacity s) d).
Proof.
  intros Hwf%wf_reachable. split; [by apply Fill_filled|].
  apply bijection_filled.
Qed.

(** A push of a vertex that is not stored, with a distance that is not
    below the one in the parent slot, writes slot [NumElements] and the
    position of the vertex and nothing else. *)
Lemma Push_append v d s p :
  0 ≤ v < Capacity s →
  rd (Positions s) v = Some (-1) →
  0 ≤ NumElements s < Z.of_nat (length (Queue s)) →
  rd (<[Z.to_nat (NumElements s) := mkElem v d]> (Queue s))
     (getParentIndex (NumElements s)) = Some p →
  dlt d (D p) = false →
  Push v d s =
  Ok () (mkPQueue (<[Z.to_nat v := NumElements s]> (Positions s))
                  (<[Z.to_nat (NumElements s) := mkElem v d]> (Queue s))
                  (NumElements s + 1) (Capacity s)).
Proof.
  intros Hv Hp Hn Hpar Hd.
  pose proof (rd_lt _ _ _ Hp) as Hvp.
  unfold Push, Insert.
  rewrite (bind_run _ _ _ _ _ (proj2 (getCap_Ok s _ s) (conj eq_refl eq_refl))).
  destruct (Z.ltb_spec v 0); [lia|].
  destruct (Z.geb_spec v (Capacity s)); [lia|]. simpl.
  rewrite (bind_run _ _ _ _ _ (proj2 (getP_Ok v s _ s) (conj Hp eq_refl))).
  simpl.
  rewrite (bind_run _ _ _ _ _ (proj2 (ret_Ok () () s s) (conj eq_refl eq_refl))).
  rewrite (bind_run _ _ _ _ _ (proj2 (getCap_Ok s _ s) (conj eq_refl eq_refl))).
  destruct (Z.ltb_spec v 0); [lia|].
  destruct (Z.geb_spec v (Capacity s)); [lia|]. simpl.
  rewrite (bind_run _ _ _ _ _ (proj2 (getP_Ok v s _ s) (conj Hp eq_refl))).
  simpl.
  unfold bind, getNum, setQ, setP, setNum, getQ; simpl.
  rewrite (wr_in_range (Queue s)) by lia. simpl.
  rewrite (wr_in_range (Positions s)) by lia. simpl.
  replace (NumElements s + 1 - 1) with (NumElements s) by lia.
  assert (rd (<[Z.to_nat (NumElements s) := mkElem v d]> (Queue s))
             (NumElements s) = Some (mkElem v d)) as ->.
  { apply rd_Some. split; [lia|]. apply list_lookup_insert_eq. lia. }
  simpl. rewrite Hpar. simpl. by rewrite Hd.
Qed.

Lemma bind_getNum {A} (k : Z → M A) s :
  bind getNum k s = k (NumElements s) s.
Proof. done. Qed.

Lemma bind_getQ {A} (k : Elem → M A) i s e :
  rd (Queue s) i = Some e → bind (getQ i) k s = k e s.
Proof. intros He. apply bind_run. by apply getQ_Ok. Qed.

(** Deleting the last occupied slot clears it and marks its vertex
    absent. *)
Lemma Delete_last_run position s e :
  position = NumElements s - 1 → rd (Queue s) position = Some e →
  0 ≤ V e < Z.of_nat (length (Positions s)) →
  Delete position s =
  Ok (V e) (mkPQueue (<[Z.to_nat (V e) := -1]> (Positions s))
                     (<[Z.to_nat position := Elem_default]> (Queue s))
                     (NumElements s - 1) (Capacity s)).
Proof.
  intros Hpos He HV. pose proof (rd_lt _ _ _ He) as Hlt.
  unfold Delete.
  rewrite (bind_run _ _ _ _ _
             (proj2 (Empty_Ok s _ s) (conj eq_refl eq_refl))).
  destruct (Z.eqb_spec (NumElements s) 0); [lia|].
  rewrite bind_getNum.
  destruct (Z.ltb_spec position 0); [lia|].
  destruct (Z.geb_spec position (NumElements s)); [lia|]. simpl.
  rewrite (bind_getQ _ _ _ _ He), bind_getNum.
  destruct (Z.eqb_spec position (NumElements s - 1)); [|lia].
  rewrite (bind_run _ _ _ _ _ (setD_run _ minus_one _ _ He)).
  erewrite bind_run; last first.
  { apply setV_run. simpl. apply rd_Some. split; [lia|].
    apply list_lookup_insert_eq. lia. }
  simpl. rewrite list_insert_insert_eq.
  erewrite bind_run; last first.
  { apply setP_run. simpl. lia. }
  by rewrite bind_getNum.
Qed.

(** X8.  On a reachable queue with no elements, pushing a vertex whose
    position is -1 and popping at once returns that vertex and leaves the
    queue exactly as it was before the push. *)
Theorem Push_PopMin_on_empty s v d :
  reachable s →
  NumElements s = 0 →
  rd (Positions s) v = Some (-1) →
  bind (Push v d) (λ _, PopMin) s = Ok v s.
Proof.
  intros Hs Hn Hp.
  pose proof (wf_reachable _ Hs) as [Hlq Hlp _ _ _].
  pose proof (tidy_reachable _ Hs) as [Hcl _].
  pose proof (rd_lt _ _ _ Hp) as Hv.
  assert (rd (Queue s) 0 = Some Elem_default) as [_ H0]%rd_Some
    by (apply Hcl; lia).
  pose proof (proj1 (rd_Some _ _ _) Hp) as [_ Hp'].
  pose proof (lookup_lt_Some _ _ _ H0) as Hlen.
  erewrite bind_run; last first.
  { apply (Push_append v d s (mkElem v d)); rewrite ?Hn; try lia; try done.
    - apply rd_Some. split; [done|]. by apply list_lookup_insert_eq.
    - apply dlt_irrefl. }
  rewrite Hn. unfold PopMin.
  erewrite bind_run by (by apply Empty_Ok). simpl.
  rewrite (Delete_last_run 0 _ (mkElem v d)); simpl;
    rewrite ?length_insert; try lia.
  - rewrite !list_insert_insert_eq.
    rewrite (list_insert_id (Positions s)) by done.
    change (Z.to_nat 0) with 0%nat in *.
    rewrite (list_insert_id (Queue s)) by done.
    change (0 + 1 - 1) with 0. rewrite <-Hn. by destruct s.
  - apply rd_Some. split; [done|]. by apply list_lookup_insert_eq.
Qed.

(** * Fill and the pushes it stands for *)

Lemma filled_upto_new N s d : PQueue_new N = inr s → filled_upto N d 0 s.
Proof.
  unfold PQueue_new. destruct (Z.ltb_spec N 0); [done|].
  intros [= <-]. split; simpl; rewrite ?length_replicate; try lia.
  intros i Hi. split; (apply rd_Some; split; [lia|]);
    apply lookup_replicate_2; lia.
Qed.

Lemma filled_upto_all N d s : filled_upto N d N s → s = filled N d.
Proof.
  intros [Hc Hn Hlq Hlp Hst _]. destruct s as [ps q n c]; simpl in *.
  subst c n. unfold filled. f_equal.
  - apply rd_ext. intros i Hi.
    destruct (decide (i < N)) as [Hlt|Hge].
    + destruct (Hst i) as [_ ->]; [lia|]. symmetry. apply rd_Some.
      split; [done|]. rewrite lookup_seqZ_lt by lia. f_equal. lia.
    + unfold rd. destruct (Z.ltb_spec i 0); [done|].
      rewrite lookup_seqZ_ge by lia. apply lookup_ge_None. lia.
  - apply rd_ext. intros i Hi.
    destruct (decide (i < N)) as [Hlt|Hge].
    + destruct (Hst i) as [-> _]; [lia|]. symmetry. apply rd_Some.
      split; [done|]. rewrite list_lookup_fmap, lookup_seqZ_lt by lia.
      simpl. do 2 f_equal. lia.
    + unfold rd. destruct (Z.ltb_spec i 0); [done|].
      rewrite list_lookup_fmap, lookup_seqZ_ge by lia.
      apply lookup_ge_None. lia.
Qed.

Lemma Push_next N d k s :
  filled_upto N d k s → 0 ≤ k < N →
  ∃ s', Push k d s = Ok () s' ∧ filled_upto N d (k + 1) s'.
Proof.
  intros [Hc Hn Hlq Hlp Hst Hfree] Hk.
  destruct (Hfree k) as [Hqk Hpk]; [lia|].
  assert (D <$> rd (<[Z.to_nat k := mkElem k d]> (Queue s))
                   (getParentIndex k) = Some d) as Hpar.
  { destruct (decide (k = 0)) as [->|Hne].
    - change (getParentIndex 0) with 0. unfold rd; simpl.
      rewrite list_lookup_insert_eq by (simpl; lia). done.
    - pose proof (getParentIndex_le k). pose proof (getParentIndex_lt k).
      unfold rd. destruct (Z.ltb_spec (getParentIndex k) 0); [lia|].
      rewrite list_lookup_insert_ne by lia.
      destruct (Hst (getParentIndex k)) as [[_ ->]%rd_Some _]; [lia|done]. }
  apply fmap_Some in Hpar as (p&Hpar&Hd).
  eexists. split.
  - apply (Push_append k d s p); rewrite ?Hn, ?Hc; try done; try lia.
    rewrite <-Hd. apply dlt_irrefl.
  - rewrite Hn. split; simpl; rewrite ?length_insert; try lia.
    + intros i Hi. destruct (decide (i = k)) as [->|Hne].
      * split; (apply rd_Some; split; [lia|]);
          apply list_lookup_insert_eq; lia.
      * destruct (Hst i) as [Hq Hp]; [lia|]. unfold rd in *.
        destruct (Z.ltb_spec i 0); [done|].
        by rewrite !list_lookup_insert_ne by lia.
    + intros i Hi. destruct (Hfree i) as [Hq Hp]; [lia|]. unfold rd in *.
      destruct (Z.ltb_spec i 0); [done|].
      by rewrite !list_lookup_insert_ne by lia.
Qed.

Lemma Push_all_upto N d n k s :
  filled_upto N d k s → 0 ≤ k → k + Z.of_nat n = N →
  Push_all ((λ v, (v, d)) <$> seqZ k (Z.of_nat n)) s = Ok () (filled N d).
Proof.
  revert k s. induction n as [|n IH]; intros k s Hs Hk Hn.
  - simpl. replace k with N in Hs by lia.
    by rewrite (filled_upto_all _ _ _ Hs).
  - rewrite seqZ_cons by lia. simpl.
    destruct (Push_next N d k s) as (s1&Hpush&Hs1); [done|lia|].
    rewrite (bind_run _ _ _ _ _ Hpush).
    replace (Z.pred (Z.of_nat (S n))) with (Z.of_nat n) by lia.
    apply IH; [done|lia|lia].
Qed.

(** X7.  On a freshly constructed queue [Fill(d)] does what its comment
    says: it leaves the queue exactly as the [N] calls [Push(0, d)], ...,
    [Push(N-1, d)] do. *)
Theorem Fill_as_pushes N d s :
  PQueue_new N = inr s →
  Push_all ((λ v, (v, d)) <$> seqZ 0 N) s = Fill d s.
Proof.
  intros Hnew.
  assert (0 ≤ N ∧ Capacity s = N) as [HN Hc].
  { unfold PQueue_new in Hnew. destruct (Z.ltb_spec N 0); [done|].
    by injection Hnew as <-. }
  rewrite (Fill_filled d s), Hc by by eapply wf_new.
  rewrite <-(Z2Nat.id N) at 1 by done.
  apply Push_all_upto; [by apply filled_upto_new|done|lia].
Qed.

(** * The heap order, for distances that form a total order *)

Section Ordered.
Context `{!OrderedDistance dist}.

Lemma dle_refl a : dle a a = true.
Proof.
  destruct (dle a a) eqn:E; [done|].
  apply dle_total in E. by rewrite dlt_irrefl in E.
Qed.

Lemma rd_exchange (l q1 q2 : list Elem) i j a b k :
  rd l i = Some a → rd l j = Some b →
  wr l i b = Some q1 → wr q1 j a = Some q2 →
  rd q2 k = if decide (k = j) then Some a
            else if decide (k = i) then Some b else rd l k.
Proof.
  intros Ha Hb Hq1 Hq2. destruct (decide (k = j)) as [->|Hj].
  - by eapply rd_wr_eq.
  - rewrite (rd_wr_ne _ _ _ _ _ Hq2) by done.
    destruct (decide (k = i)) as [->|Hi]; [by eapply rd_wr_eq|].
    by rewrite (rd_wr_ne _ _ _ _ _ Hq1).
Qed.

(** [shiftUp] from the one slot that may be out of order restores the
    heap order. *)
Lemma shiftUp_rec_heap_order fuel position s u s' :
  shiftUp_rec fuel position s = Ok u s' →
  heap_order_but position s → heap_order s'.
Proof.
  revert position s. induction fuel as [|fuel IH];
    intros position s Hrun [Hoth Hch]; [done|].
  apply shiftUp_rec_step in Hrun
    as (e&p&He&Hp&[[Hge ->]|(Hlt&q1&q2&ps1&ps2&Hq1&_&Hq2&_&Hrun)]).
  - (* in place *)
    assert (dle (D p) (D e) = true) as Hpe.
    { destruct Hge as [Hnlt|Hge]; [|done].
      destruct (dle (D p) (D e)) eqn:E; [done|].
      apply dle_total in E. congruence. }
    intros i ei pi Hi Hei Hpi. unfold dge.
    destruct (decide (i = position)) as [->|Hne]; [|by eapply Hoth].
    by simplify_eq.
  - (* exchanged with the parent *)
    pose proof (rd_lt _ _ _ He) as Hpos.
    assert (position ≠ 0) as Hne0.
    { intros ->. change (getParentIndex 0) with 0 in Hp.
      simplify_eq. by rewrite dlt_irrefl in Hlt. }
    pose proof (getParentIndex_lt position) as Hpar.
    pose proof (getParentIndex_le position) as Hpar'.
    set (par := getParentIndex position) in *.
    assert (dle (D e) (D p) = true) as Hep by by apply dlt_dle.
    eapply IH; [exact Hrun|]. split; simpl.
    + intros i ei pi Hi Hne.
      rewrite !(rd_exchange _ _ _ _ _ _ _ _ Hp He Hq1 Hq2).
      pose proof (getParentIndex_lt i).
      destruct (decide (i = position)) as [->|Hip].
      * fold par. rewrite decide_False, decide_True by lia.
        by intros [= <-] [= <-].
      * rewrite decide_False by done. intros Hei.
        destruct (decide (getParentIndex i = position)) as [Hpi|Hpi].
        { intros [= <-]. eapply (Hch i ei p); try done; lia. }
        destruct (decide (getParentIndex i = par)) as [Hpi'|Hpi'].
        { intros [= <-]. eapply dle_trans; [exact Hep|].
          eapply (Hoth i ei p); try done. by rewrite Hpi'. }
        intros Hpi''. by eapply (Hoth i).
    + intros i ei g Hi Hpi Hpar0.
      rewrite !(rd_exchange _ _ _ _ _ _ _ _ Hp He Hq1 Hq2).
      pose proof (getParentIndex_lt par). pose proof (getParentIndex_lt i).
      rewrite (decide_False (P := getParentIndex par = position)) by lia.
      rewrite (decide_False (P := getParentIndex par = par)) by lia.
      rewrite (decide_False (P := i = par)) by lia.
      assert (∀ g, rd (Queue s) (getParentIndex par) = Some g →
                   dle (D g) (D p) = true) as Hgp.
      { intros g' Hg'. eapply (Hoth par p g'); try done; lia. }
      destruct (decide (i = position)) as [->|Hip].
      * intros [= <-] Hg. by apply Hgp.
      * intros Hei Hg. eapply dle_trans; [by apply Hgp|].
        eapply (Hoth i ei p); try done. by rewrite Hpi.
Qed.

Lemma Insert_heap_order v d s u s' :
  heap_order s → Insert v d s = Ok u s' → heap_order s'.
Proof.
  intros Hheap (_&_&q&ps&Hq&_&Hup)%Insert_inv.
  eapply shiftUp_rec_heap_order; [exact Hup|].
  pose proof (proj1 (wr_Some _ _ _ _) Hq) as [Hn _].
  split; simpl.
  - intros i e p Hi Hne. pose proof (getParentIndex_lt i).
    rewrite !(rd_wr_ne _ _ _ _ _ Hq) by lia.
    intros He Hp. apply (Hheap i e p); [lia|done..].
  - intros i e g Hi Hpi. pose proof (getParentIndex_lt i). lia.
Qed.

Lemma Push_fresh_heap_order v d s u s' :
  heap_order s → v ∉ vertices s → Push v d s = Ok u s' → heap_order s'.
Proof.
  intros Hheap Hv (s1&Hins&[->|(position&_&_&Hdel)])%Push_Ok.
  - by eapply Insert_heap_order.
  - by apply Delete_vertex in Hdel.
Qed.

(** In a heap-ordered queue no occupied slot holds a distance below the
    root's. *)
Lemma heap_order_root s e0 :
  heap_order s → NumElements s ≤ Z.of_nat (length (Queue s)) →
  rd (Queue s) 0 = Some e0 →
  ∀ i e, 0 ≤ i < NumElements s → rd (Queue s) i = Some e →
         dle (D e0) (D e) = true.
Proof.
  intros Hheap Hlen H0 i.
  induction (Z.lt_wf 0 i) as [i _ IH]. intros e Hi He.
  destruct (decide (i = 0)) as [->|Hne].
  - simplify_eq. apply dle_refl.
  - pose proof (getParentIndex_lt i). pose proof (getParentIndex_le i).
    destruct (rd_is_Some (Queue s) (getParentIndex i)) as [p Hp]; [lia|].
    eapply dle_trans; [apply (IH (getParentIndex i)); [lia|lia|done]|].
    apply (Hheap i e p); [lia|done..].
Qed.

Lemma heap_order_PopMin s :
  heap_order s → PopMin_returns_minimum s.
Proof.
  intros Hheap v s' [_ (e&He&HV&_&Hlen&_&_&_&_&Hocc&_)%Delete_Ok]%PopMin_Ok.
  exists e. split; [rewrite Hocc; left|]. split; [done|].
  intros e' (i&He')%list_elem_of_lookup.
  apply lookup_take_Some in He' as [He' Hi].
  eapply (heap_order_root s e Hheap Hlen He (Z.of_nat i)); [lia|].
  apply rd_Some. split; [lia|]. by rewrite Nat2Z.id.
Qed.

(** X9.  Pushing a vertex that is not stored keeps the heap order (I1):
    [Insert] and [shiftUp] are right. *)
Theorem Push_fresh_keeps_heap_order s v d s' :
  heap_order s → v ∉ vertices s → Push v d s = Ok () s' → heap_order s'.
Proof. apply Push_fresh_heap_order. Qed.

(** X10.  In any queue that is in heap order, [PopMin] returns a vertex of
    minimum distance. *)
Theorem PopMin_minimum_of_heap s :
  heap_order s → PopMin_returns_minimum s.
Proof. apply heap_order_PopMin. Qed.

Lemma Push_all_fresh_heap_order pushes s u s' :
  NoDup pushes.*1 → (∀ v, v ∈ pushes.*1 → v ∉ vertices s) →
  heap_order s → Push_all pushes s = Ok u s' → heap_order s'.
Proof.
  revert s. induction pushes as [|[v d] pushes IH];
    intros s Hnd Hfresh Hheap Hrun; simpl in Hrun.
  - by apply ret_Ok in Hrun as [_ ->].
  - apply bind_Ok in Hrun as ([]&s1&Hpush&Hrun).
    apply NoDup_cons in Hnd as [Hv Hnd].
    assert (v ∉ vertices s) as Hvs by (apply Hfresh; left).
    pose proof (Push_fresh _ _ _ _ _ Hvs Hpush) as [_ Hvs1].
    apply (IH s1); [done| |by eapply Push_fresh_heap_order|done].
    intros w Hw. rewrite Hvs1.
    intros [?| ->%list_elem_of_singleton]%elem_of_app; [|done].
    apply (Hfresh w); [by right|done].
Qed.

(** X11.  After pushes of pairwise distinct vertices into a fresh queue
    the queue is in heap order, so the next [PopMin] returns a vertex of
    minimum distance. *)
Theorem PopMin_after_distinct_pushes N s0 pushes s1 :
  PQueue_new N = inr s0 →
  NoDup pushes.*1 →
  Push_all pushes s0 = Ok () s1 →
  heap_order s1 ∧ PopMin_returns_minimum s1.
Proof.
  intros Hnew Hnd Hrun.
  assert (heap_order s1) as Hheap; [|split; [done|by apply heap_order_PopMin]].
  eapply (Push_all_fresh_heap_order pushes s0); [done| | |done].
  - intros v _. unfold PQueue_new in Hnew.
    destruct (N <? 0); [done|]. injection Hnew as <-.
    unfold vertices, occupied; simpl. apply not_elem_of_nil.
  - unfold PQueue_new in Hnew. destruct (N <? 0); [done|].
    injection Hnew as <-. intros i e p Hi. simpl in Hi. lia.
Qed.

End Ordered.

(** * Calls that cannot fail *)

Lemma bind_ret {A B} (a : A) (k : A → M B) s : bind (ret a) k s = k a s.
Proof. done. Qed.

Lemma bind_getCap {A} (k : Z → M A) s :
  bind getCap k s = k (Capacity s) s.
Proof. done. Qed.

Lemma bind_setNum {A} (k : unit → M A) n s :
  bind (setNum n) k s =
  k () (mkPQueue (Positions s) (Queue s) n (Capacity s)).
Proof. done. Qed.

Lemma bind_getP {A} (k : Z → M A) v s p :
  rd (Positions s) v = Some p → bind (getP v) k s = k p s.
Proof. intros Hp. apply bind_run. by apply getP_Ok. Qed.

Lemma bind_setQ {A} (k : unit → M A) i x s :
  0 ≤ i < Z.of_nat (length (Queue s)) →
  bind (setQ i x) k s =
  k () (mkPQueue (Positions s) (<[Z.to_nat i := x]> (Queue s))
                 (NumElements s) (Capacity s)).
Proof.
  intros Hi. apply bind_run. apply setQ_Ok. eexists.
  by rewrite wr_in_range.
Qed.

Lemma bind_setP {A} (k : unit → M A) v p s :
  0 ≤ v < Z.of_nat (length (Positions s)) →
  bind (setP v p) k s =
  k () (mkPQueue (<[Z.to_nat v := p]> (Positions s)) (Queue s)
                 (NumElements s) (Capacity s)).
Proof. intros Hv. apply bind_run. by apply setP_run. Qed.

Lemma rd_insert_eq {A} (l : list A) i x :
  0 ≤ i < Z.of_nat (length l) → rd (<[Z.to_nat i := x]> l) i = Some x.
Proof.
  intros Hi. apply rd_Some. split; [lia|].
  apply list_lookup_insert_eq. lia.
Qed.

Lemma rd_insert_ne {A} (l : list A) i j x :
  0 ≤ i → i ≠ j → rd (<[Z.to_nat i := x]> l) j = rd l j.
Proof.
  intros Hi Hne. unfold rd. destruct (Z.ltb_spec j 0); [done|].
  apply list_lookup_insert_ne. lia.
Qed.

Lemma occupied_elem s i e :
  0 ≤ i < NumElements s → rd (Queue s) i = Some e → e ∈ occupied s.
Proof.
  intros Hi [_ He]%rd_Some. apply list_elem_of_lookup.
  exists (Z.to_nat i). unfold occupied. rewrite lookup_take_lt by lia. done.
Qed.

(** [shiftUp] from an occupied slot returns normally when the arrays are
    long enough for the count and for the vertices stored. *)
Lemma shiftUp_rec_succeeds fuel position s :
  (Z.to_nat position < fuel)%nat →
  0 ≤ position < NumElements s →
  NumElements s ≤ Z.of_nat (length (Queue s)) →
  (∀ e, e ∈ occupied s → 0 ≤ V e < Z.of_nat (length (Positions s))) →
  ∃ s', shiftUp_rec fuel position s = Ok () s'.
Proof.
  revert position s. induction fuel as [|fuel IH];
    intros position s Hfuel Hpos Hlen Hvs; [lia|].
  pose proof (getParentIndex_le position) as Hpar.
  destruct (rd_is_Some (Queue s) position) as [e He]; [lia|].
  destruct (rd_is_Some (Queue s) (getParentIndex position)) as [p Hp]; [lia|].
  simpl. rewrite (bind_getQ _ _ _ _ He), (bind_getQ _ _ _ _ Hp).
  destruct (dge _ _); [by eexists|].
  rewrite (bind_getQ _ _ _ _ He), (bind_getQ _ _ _ _ Hp).
  destruct (dlt (D e) (D p)) eqn:Elt; [|by eexists].
  assert (position ≠ 0) as Hne0.
  { intros ->. change (getParentIndex 0) with 0 in Hp.
    simplify_eq. by rewrite dlt_irrefl in Elt. }
  pose proof (getParentIndex_lt position) as Hpar'.
  rewrite (bind_getQ _ _ _ _ Hp), (bind_getQ _ _ _ _ He).
  rewrite bind_setQ by lia.
  rewrite (bind_getQ _ _ _ e) by (simpl; apply rd_insert_eq; lia).
  rewrite bind_setP
    by (simpl; apply Hvs; eapply (occupied_elem s position); [lia|done]).
  rewrite bind_setQ by (simpl; rewrite length_insert; lia).
  rewrite (bind_getQ _ _ _ p)
    by (simpl; apply rd_insert_eq; rewrite length_insert; lia).
  rewrite bind_setP.
  2:{ simpl. rewrite length_insert.
      apply Hvs. eapply (occupied_elem s (getParentIndex position)); [lia|done]. }
  apply IH; simpl; rewrite ?length_insert; try lia.
  intros e' He'. apply Hvs. revert He'. unfold occupied; simpl.
  apply rd_Some in He as [_ He]. apply rd_Some in Hp as [_ Hp].
  rewrite take_exchange_Permutation; [done|lia|lia|done..].
Qed.

Lemma vertices_length s :
  0 ≤ NumElements s ≤ Z.of_nat (length (Queue s)) →
  Z.of_nat (length (vertices s)) = NumElements s.
Proof.
  intros Hn. unfold vertices, occupied.
  rewrite length_fmap, length_take. lia.
Qed.

(** A queue that does not hold some vertex is not full. *)
Lemma absent_not_full s v :
  wf s → tidy s → 0 ≤ v < Capacity s → v ∉ vertices s →
  NumElements s < Capacity s.
Proof.
  intros [Hlq Hlp Hn Huniq _] [_ Hvs] Hv Hnotin.
  assert (v :: vertices s ⊆+ seqZ 0 (Capacity s)) as Hsub.
  { apply NoDup_submseteq; [by apply NoDup_cons|].
    intros w [->|Hw]%elem_of_cons; apply elem_of_seqZ; [lia|].
    apply list_elem_of_fmap in Hw as (e&->&He). apply Hvs in He. lia. }
  apply submseteq_length in Hsub. rewrite length_seqZ in Hsub.
  simpl in Hsub. pose proof (vertices_length s). lia.
Qed.

Lemma Push_absent_succeeds v d s :
  wf s → tidy s → 0 ≤ v < Capacity s → rd (Positions s) v = Some (-1) →
  ∃ s', Push v d s = Ok () s'.
Proof.
  intros Hwf Ht Hv Hp.
  pose proof (absent_not_full s v Hwf Ht Hv (wf_absent _ Hwf _ Hp)) as Hfull.
  destruct Hwf as [Hlq Hlp Hn _ _]. destruct Ht as [_ Hvs].
  unfold Push. rewrite bind_getCap.
  destruct (Z.ltb_spec v 0); [lia|].
  destruct (Z.geb_spec v (Capacity s)); [lia|]. simpl.
  rewrite (bind_getP _ _ _ _ Hp). simpl. rewrite bind_ret.
  unfold Insert. rewrite bind_getCap.
  destruct (Z.ltb_spec v 0); [lia|].
  destruct (Z.geb_spec v (Capacity s)); [lia|]. simpl.
  rewrite (bind_getP _ _ _ _ Hp). simpl.
  rewrite bind_getNum, bind_setQ, bind_getNum, bind_setP by (simpl; lia).
  rewrite bind_getNum, bind_setNum, bind_getNum. simpl.
  replace (NumElements s + 1 - 1) with (NumElements s) by lia.
  pose proof (getParentIndex_le (NumElements s)) as Hpar.
  rewrite (bind_getQ _ _ _ (mkElem v d)) by (simpl; apply rd_insert_eq; lia).
  destruct (rd_is_Some (<[Z.to_nat (NumElements s) := mkElem v d]> (Queue s))
              (getParentIndex (NumElements s))) as [p Hpe];
    [rewrite length_insert; lia|].
  rewrite (bind_getQ _ _ _ p) by done.
  destruct (dlt _ _); [|by eexists].
  apply shiftUp_rec_succeeds; simpl; rewrite ?length_insert; try lia.
  intros e. unfold occupied; simpl.
  replace (Z.to_nat (NumElements s + 1))
    with (S (Z.to_nat (NumElements s))) by lia.
  rewrite (take_S_r _ _ (mkElem v d)) by (apply list_lookup_insert_eq; lia).
  rewrite take_insert_ge by lia.
  intros [He| ->%list_elem_of_singleton]%elem_of_app; [|simpl; lia].
  apply Hvs in He. lia.
Qed.

(** X12.  In a reachable queue, [Push] of a vertex in range whose position
    is -1 always returns normally: the queue is not full, no array is
    accessed out of range and no exception is thrown. *)
Theorem Push_of_absent_vertex_succeeds s v d :
  reachable s →
  0 ≤ v < Capacity s →
  rd (Positions s) v = Some (-1) →
  ∃ s', Push v d s = Ok () s'.
Proof.
  intros Hs. apply Push_absent_succeeds;
    [by apply wf_reachable|by apply tidy_reachable].
Qed.

Lemma getSmallerChild_succeeds position s :
  0 ≤ position → position * 2 + 2 < Z.of_nat (length (Queue s)) →
  ∃ m, getSmallerChild position s = Ok m s ∧
       (m = position * 2 + 1 ∨ m = position * 2 + 2).
Proof.
  intros Hpos Hlen. unfold getSmallerChild.
  destruct (rd_is_Some (Queue s) (position * 2 + 1)) as [l Hl]; [lia|].
  destruct (rd_is_Some (Queue s) (position * 2 + 2)) as [r Hr]; [lia|].
  cbv zeta. rewrite (bind_getQ _ _ _ _ Hl), (bind_getQ _ _ _ _ Hr).
  destruct (deq _ _); [eexists; split; [done|by right]|].
  rewrite (bind_getQ _ _ _ _ Hl), (bind_getQ _ _ _ _ Hr).
  destruct (dgt _ _); eexists; (split; [done|]); [by left|by right].
Qed.

Lemma inCorrectSpotwithRespectToChild_succeeds position s :
  0 ≤ position → position * 2 + 2 < Z.of_nat (length (Queue s)) →
  ∃ b, inCorrectSpotwithRespectToChild position s = Ok b s.
Proof.
  intros Hpos Hlen. unfold inCorrectSpotwithRespectToChild.
  destruct (rd_is_Some (Queue s) (position * 2 + 1)) as [l Hl]; [lia|].
  destruct (rd_is_Some (Queue s) (position * 2 + 2)) as [r Hr]; [lia|].
  destruct (rd_is_Some (Queue s) position) as [e He]; [lia|].
  destruct (getSmallerChild_succeeds position s) as (m&Hm&Hm'); [done..|].
  destruct (rd_is_Some (Queue s) m) as [c Hc]; [lia|].
  rewrite (bind_getQ _ _ _ _ Hl).
  assert (∃ hasChild,
    (if dne (D l) minus_one then ret true
     else bind (getQ (position * 2 + 2)) (λ r, ret (dne (D r) minus_one))) s
    = Ok hasChild s) as [hasChild Hhas].
  { destruct (dne _ _); [by eexists|].
    rewrite (bind_getQ _ _ _ _ Hr). by eexists. }
  rewrite (bind_run _ _ _ _ _ Hhas).
  destruct hasChild; [|by eexists].
  rewrite (bind_getQ _ _ _ _ He), (bind_run _ _ _ _ _ Hm).
  rewrite (bind_getQ _ _ _ _ Hc).
  destruct (dle _ _); by eexists.
Qed.

(** [shiftDown] from an occupied slot returns normally when both arrays
    are at least as long as the count. *)
Lemma shiftDown_rec_succeeds fuel position s :
  (Z.to_nat (NumElements s - position) < fuel)%nat →
  0 ≤ position < NumElements s →
  NumElements s ≤ Z.of_nat (length (Queue s)) →
  NumElements s ≤ Z.of_nat (length (Positions s)) →
  ∃ s', shiftDown_rec fuel position s = Ok () s'.
Proof.
  revert position s. induction fuel as [|fuel IH];
    intros position s Hfuel Hpos Hlq Hlp; [lia|].
  simpl. unfold getLeftChildIndex, getRightChildIndex.
  rewrite bind_getNum.
  assert (NumElements s ≤ position * 2 + 1 ∧
          (if position * 2 + 2 >=? NumElements s
           then bind getNum (λ n, if position * 2 + 1 >=? n then ret None
                                  else ret (Some (position * 2 + 1)))
           else bind (getSmallerChild position) (λ m, ret (Some m))) s
          = Ok None s ∨
          ∃ m, position * 2 + 1 ≤ m < NumElements s ∧
          (if position * 2 + 2 >=? NumElements s
           then bind getNum (λ n, if position * 2 + 1 >=? n then ret None
                                  else ret (Some (position * 2 + 1)))
           else bind (getSmallerChild position) (λ m, ret (Some m))) s
          = Ok (Some m) s) as [[_ Hmin]|(m&Hm&Hmin)].
  { destruct (Z.geb_spec (position * 2 + 2) (NumElements s)).
    - rewrite bind_getNum.
      destruct (Z.geb_spec (position * 2 + 1) (NumElements s)).
      + by left.
      + right. exists (position * 2 + 1). split; [lia|done].
    - right.
      destruct (getSmallerChild_succeeds position s) as (m&Hm&Hm');
        [lia..|].
      exists m. split; [lia|]. by rewrite (bind_run _ _ _ _ _ Hm). }
  { rewrite (bind_run _ _ _ _ _ Hmin). by eexists. }
  rewrite (bind_run _ _ _ _ _ Hmin).
  destruct (rd_is_Some (Queue s) position) as [e He]; [lia|].
  destruct (rd_is_Some (Queue s) m) as [c Hc]; [lia|].
  rewrite (bind_getQ _ _ _ _ He), (bind_getQ _ _ _ _ Hc).
  destruct (dgt _ _); [|by eexists].
  rewrite (bind_getQ _ _ _ _ Hc), (bind_getQ _ _ _ _ He).
  rewrite bind_setQ by lia.
  rewrite bind_setP by (simpl; lia).
  rewrite bind_setQ by (simpl; rewrite length_insert; lia).
  rewrite bind_setP by (simpl; rewrite length_insert; lia).
  apply IH; simpl; rewrite ?length_insert; lia.
Qed.

Lemma swap_root_succeeds s :
  0 < NumElements s →
  NumElements s ≤ Z.of_nat (length (Queue s)) →
  NumElements s ≤ Z.of_nat (length (Positions s)) →
  2 < Z.of_nat (length (Queue s)) →
  ∃ s', swap 0 s = Ok () s'.
Proof.
  intros Hn Hlq Hlp H3. unfold swap.
  rewrite (bind_run _ _ s true s) by done. simpl. rewrite bind_ret.
  destruct (inCorrectSpotwithRespectToChild_succeeds 0 s) as [b Hb];
    [lia..|].
  rewrite (bind_run _ _ _ _ _ Hb).
  destruct b; simpl; [by eexists|].
  unfold shiftDown. rewrite bind_getNum.
  apply shiftDown_rec_succeeds; lia.
Qed.

Lemma PopMin_succeeds s :
  wf s → tidy s → NumElements s ≠ 0 →
  3 ≤ Capacity s ∨ NumElements s = 1 →
  ∃ v s', PopMin s = Ok v s'.
Proof.
  intros [Hlq Hlp Hn _ _] [_ Hvs] Hne Hcap.
  unfold PopMin. erewrite bind_run by (by apply Empty_Ok).
  destruct (Z.eqb_spec (NumElements s) 0); [done|].
  destruct (rd_is_Some (Queue s) 0) as [e He]; [lia|].
  assert (0 ≤ V e < Capacity s) as HV
    by (apply Hvs; eapply (occupied_elem s 0); [lia|done]).
  destruct (decide (NumElements s = 1)) as [H1|H1].
  { eexists _, _. apply (Delete_last_run 0 s e); [lia|done|lia]. }
  destruct Hcap as [Hcap|]; [|done].
  unfold Delete. erewrite bind_run by (by apply Empty_Ok).
  destruct (Z.eqb_spec (NumElements s) 0); [done|].
  rewrite bind_getNum.
  destruct (Z.geb_spec 0 (NumElements s)); [lia|].
  change ((0 <? 0) || false) with false. cbv iota.
  rewrite (bind_getQ _ _ _ _ He), bind_getNum.
  destruct (Z.eqb_spec 0 (NumElements s - 1)); [lia|]. cbv iota.
  rewrite bind_getNum.
  destruct (Z.eqb_spec (NumElements s) 1); [lia|]. cbv iota.
  rewrite bind_setNum, bind_getNum. simpl.
  destruct (rd_is_Some (Queue s) (NumElements s - 1)) as [l Hl]; [lia|].
  assert (0 ≤ V l < Capacity s) as HVl.
  { apply Hvs. eapply (occupied_elem s (NumElements s - 1)); [lia|done]. }
  rewrite (bind_getQ _ _ _ l) by done.
  rewrite bind_setQ by (simpl; lia).
  rewrite (bind_getQ _ _ _ l) by (simpl; apply rd_insert_eq; lia).
  rewrite bind_setP by (simpl; lia).
  rewrite bind_setP by (simpl; rewrite length_insert; lia).
  destruct (rd_is_Some (<[Z.to_nat 0 := l]> (Queue s)) (NumElements s - 1))
    as [l' Hl']; [rewrite length_insert; lia|].
  erewrite bind_run by (by apply setV_run).
  erewrite bind_run;
    [|apply setD_run; simpl; apply rd_insert_eq; rewrite length_insert; lia].
  match goal with
  | |- ∃ v s', bind _ _ ?st = _ => set (s3 := st)
  end.
  assert (Z.of_nat (length (Queue s3)) = Capacity s ∧
          Z.of_nat (length (Positions s3)) = Capacity s ∧
          NumElements s3 = NumElements s - 1) as (Hlq3&Hlp3&Hn3)
    by (by simpl; rewrite !length_insert).
  rewrite (bind_run _ _ s3 true s3) by done.
  destruct (inCorrectSpotwithRespectToChild_succeeds 0 s3) as [b Hb];
    [lia..|].
  rewrite (bind_run _ _ _ _ _ Hb).
  destruct b; [by eexists _, _|].
  destruct (swap_root_succeeds s3) as [s' Hswap]; [lia..|].
  rewrite (bind_run _ _ _ _ _ Hswap). by eexists _, _.
Qed.

(** X13.  In a reachable queue that is not empty, [PopMin] returns
    normally whenever the capacity is at least 3 or the queue holds one
    element: reads past the end of [Queue] need a capacity of 2. *)
Theorem PopMin_succeeds_from_capacity_3 s :
  reachable s →
  NumElements s ≠ 0 →
  3 ≤ Capacity s ∨ NumElements s = 1 →
  ∃ v s', PopMin s = Ok v s'.
Proof.
  intros Hs. apply PopMin_succeeds;
    [by apply wf_reachable|by apply tidy_reachable].
Qed.

(** * The correspondence between positions and slots *)

Lemma bijection_inj s i j a b :
  bijection s → 0 ≤ i < NumElements s → 0 ≤ j < NumElements s →
  rd (Queue s) i = Some a → rd (Queue s) j = Some b → V a = V b → i = j.
Proof.
  intros [_ B2] Hi Hj Ha Hb Hab.
  pose proof (B2 i a Hi Ha) as Hpa. pose proof (B2 j b Hj Hb) as Hpb.
  rewrite Hab in Hpa. congruence.
Qed.

Lemma rd_two_writes {A} (l q1 q2 : list A) i j x y k :
  wr l i x = Some q1 → wr q1 j y = Some q2 →
  rd q2 k = if decide (k = j) then Some y
            else if decide (k = i) then Some x else rd l k.
Proof.
  intros Hq1 Hq2. destruct (decide (k = j)) as [->|Hj].
  - by eapply rd_wr_eq.
  - rewrite (rd_wr_ne _ _ _ _ _ Hq2) by done.
    destruct (decide (k = i)) as [->|Hi]; [by eapply rd_wr_eq|].
    by rewrite (rd_wr_ne _ _ _ _ _ Hq1).
Qed.

(** Exchanging two occupied slots and recording the new slot of each of
    the two vertices, as [shiftUp] does, keeps the correspondence. *)
Lemma exchange_bijection s i j a b q1 q2 ps1 ps2 :
  bijection s →
  0 ≤ i < NumElements s → 0 ≤ j < NumElements s → i ≠ j →
  rd (Queue s) i = Some a → rd (Queue s) j = Some b →
  wr (Queue s) i b = Some q1 → wr q1 j a = Some q2 →
  wr (Positions s) (V b) i = Some ps1 → wr ps1 (V a) j = Some ps2 →
  bijection (mkPQueue ps2 q2 (NumElements s) (Capacity s)).
Proof.
  intros Hb Hi Hj Hij Ha Hbj Hq1 Hq2 Hp1 Hp2.
  assert (V a ≠ V b) as Hab.
  { intros Heq. apply Hij. by eapply (bijection_inj s i j a b). }
  destruct Hb as [B1 B2]. split; simpl.
  - intros w k. rewrite (rd_two_writes _ _ _ _ _ _ _ _ Hp1 Hp2).
    destruct (decide (w = V a)) as [->|Hwa].
    { intros [= <-] _. split; [done|]. exists a. split; [|done].
      by eapply rd_wr_eq. }
    destruct (decide (w = V b)) as [->|Hwb].
    { intros [= <-] _. split; [done|]. exists b. split; [|done].
      rewrite (rd_wr_ne _ _ _ _ _ Hq2) by done. by eapply rd_wr_eq. }
    intros Hw Hk. destruct (B1 w k Hw Hk) as (Hkn&x&Hx&HV).
    split; [done|]. exists x. split; [|done].
    rewrite (rd_two_writes _ _ _ _ _ _ _ _ Hq1 Hq2).
    rewrite decide_False by (intros ->; simplify_eq; by apply Hwb).
    rewrite decide_False by (intros ->; simplify_eq; by apply Hwa). done.
  - intros k x Hk. rewrite (rd_two_writes _ _ _ _ _ _ _ _ Hq1 Hq2).
    rewrite (rd_two_writes _ _ _ _ _ _ _ _ Hp1 Hp2).
    destruct (decide (k = j)) as [->|Hkj].
    { intros [= <-]. by rewrite decide_True. }
    destruct (decide (k = i)) as [->|Hki].
    { intros [= <-]. rewrite decide_False by done. by rewrite decide_True. }
    intros Hx.
    rewrite decide_False
      by (intros Heq; apply Hki; by eapply (bijection_inj s k i x a)).
    rewrite decide_False
      by (intros Heq; apply Hkj; by eapply (bijection_inj s k j x b)).
    by apply B2.
Qed.

Lemma shiftUp_rec_bijection fuel position s u s' :
  shiftUp_rec fuel position s = Ok u s' →
  position < NumElements s → bijection s → bijection s'.
Proof.
  revert position s. induction fuel as [|fuel IH];
    intros position s Hrun Hlt Hb; [done|].
  apply shiftUp_rec_step in Hrun
    as (e&p&He&Hp&[[_ ->]|(Hdlt&q1&q2&ps1&ps2&Hq1&Hp1&Hq2&Hp2&Hrun)]);
    [done|].
  pose proof (rd_lt _ _ _ He) as Hpos.
  assert (position ≠ 0) as Hne0.
  { intros ->. change (getParentIndex 0) with 0 in Hp.
    simplify_eq. by rewrite dlt_irrefl in Hdlt. }
  pose proof (getParentIndex_lt position).
  pose proof (getParentIndex_le position).
  eapply IH; [exact Hrun|simpl; lia|].
  eapply (exchange_bijection s (getParentIndex position) position p e);
    try done; lia.
Qed.

Lemma Insert_bijection v d s u s' :
  bijection s → Insert v d s = Ok u s' → bijection s'.
Proof.
  intros [B1 B2] (Hv&Hpv&q&ps&Hq&Hps&Hup)%Insert_inv.
  eapply shiftUp_rec_bijection; [exact Hup|simpl; lia|].
  pose proof (proj1 (wr_Some _ _ _ _) Hq) as [Hn _].
  split; simpl.
  - intros w k. destruct (decide (w = v)) as [->|Hwv].
    + rewrite (rd_wr_eq _ _ _ _ Hps). intros [= <-] _.
      split; [lia|]. exists (mkElem v d). split; [|done]. by eapply rd_wr_eq.
    + rewrite (rd_wr_ne _ _ _ _ _ Hps) by done. intros Hw Hk.
      destruct (B1 w k Hw Hk) as (Hkn&x&Hx&HV). split; [lia|].
      exists x. split; [|done]. by rewrite (rd_wr_ne _ _ _ _ _ Hq) by lia.
  - intros k x Hk. destruct (decide (k = NumElements s)) as [->|Hkn].
    + rewrite (rd_wr_eq _ _ _ _ Hq). intros [= <-]. by eapply rd_wr_eq.
    + rewrite (rd_wr_ne _ _ _ _ _ Hq) by done. intros Hx.
      assert (rd (Positions s) (V x) = Some k) as Hpx by (apply B2; [lia|done]).
      rewrite (rd_wr_ne _ _ _ _ _ Hps); [done|].
      intros Heq. rewrite <-Heq in Hpx. simplify_eq; lia.
Qed.

(** X14.  Pushing a vertex that is not stored keeps the correspondence
    between positions and slots (I2), whatever the distances. *)
Theorem Push_fresh_keeps_bijection s v d s' :
  bijection s → v ∉ vertices s → Push v d s = Ok () s' → bijection s'.
Proof.
  intros Hb Hv (s1&Hins&[->|(position&_&_&Hdel)])%Push_Ok.
  - by eapply Insert_bijection.
  - by apply Delete_vertex in Hdel.
Qed.

Lemma getSmallerChild_value position s c s' :
  getSmallerChild position s = Ok c s' →
  ∃ l r, rd (Queue s) (position * 2 + 1) = Some l ∧
         rd (Queue s) (position * 2 + 2) = Some r ∧
         c = if deq (D l) (D r) then position * 2 + 2
             else if dgt (D l) (D r) then position * 2 + 1
                  else position * 2 + 2.
Proof.
  unfold getSmallerChild. cbv zeta. intros Hrun.
  step_getQ Hrun as l Hl. step_getQ Hrun as r Hr.
  exists l, r. split; [done|]. split; [done|].
  destruct (deq _ _); [by apply ret_Ok in Hrun as [-> _]|].
  step_getQ Hrun as l2 Hl2. step_getQ Hrun as r2 Hr2.
  assert (l2 = l) as -> by congruence. assert (r2 = r) as -> by congruence.
  destruct (dgt _ _); by apply ret_Ok in Hrun as [-> _].
Qed.

Lemma inCorrectSpotwithRespectToChild_false position s s' :
  inCorrectSpotwithRespectToChild position s = Ok false s' →
  ∃ e c ce, rd (Queue s) position = Some e ∧
            getSmallerChild position s = Ok c s ∧
            rd (Queue s) c = Some ce ∧ dle (D e) (D ce) = true.
Proof.
  unfold inCorrectSpotwithRespectToChild. intros Hrun.
  step_getQ Hrun as l Hl.
  apply bind_Ok in Hrun as (hasChild&s1&Hhas&Hrun).
  assert (s1 = s) as ->.
  { destruct (dne _ _); [by apply ret_Ok in Hhas as [_ ->]|].
    step_getQ Hhas as r Hr. by apply ret_Ok in Hhas as [_ ->]. }
  destruct hasChild; [|by apply ret_Ok in Hrun as [? _]].
  step_getQ Hrun as e He.
  apply bind_Ok in Hrun as (c&s1&Hc&Hrun).
  pose proof (getSmallerChild_Ok _ _ _ _ Hc) as (->&_).
  step_getQ Hrun as ce Hce.
  destruct (dle (D e) (D ce)) eqn:Ele;
    [|by apply ret_Ok in Hrun as [? _]].
  by exists e, c, ce.
Qed.

Section AboveSentinel.
Context `{!OrderedDistance dist}.

(** When the child check of [Delete] and [swap] sends an entry down,
    [shiftDown] finds it in place: it compares with the same child by the
    opposite test, so it exchanges nothing. *)
Lemma shiftDown_rec_no_exchange fuel position s u s' :
  sentinels s →
  inCorrectSpotwithRespectToChild position s = Ok false s →
  shiftDown_rec (S fuel) position s = Ok u s' →
  s' = s.
Proof.
  intros [Hcl Hab] (e&c&ce&He&Hc&Hce&Hle)%inCorrectSpotwithRespectToChild_false
    Hrun.
  apply shiftDown_rec_step in Hrun
    as [[_ ->]|(m&e'&cm&Hm&He'&Hcm&[[_ ->]|(Hgt&_)])]; [done..|].
  exfalso. assert (e' = e) as -> by congruence.
  pose proof (rd_lt _ _ _ He) as Hpos.
  assert (m = c) as ->.
  { destruct Hm as [(Hr&Hl&->)|[_ Hm]]; [|congruence].
    apply getSmallerChild_value in Hc as (l&r&Hlq&Hrq&->).
    assert (D r = minus_one) as Hdr by (eapply Hcl; [|done]; lia).
    assert (dlt minus_one (D l) = true) as Hdl.
    { apply Hab. eapply (occupied_elem s (position * 2 + 1)); [lia|done]. }
    rewrite Hdr.
    destruct (deq (D l) minus_one) eqn:Eeq.
    { apply deq_not_dlt in Eeq. congruence. }
    unfold dgt. by rewrite Hdl. }
  assert (cm = ce) as -> by congruence.
  unfold dgt in Hgt. apply dlt_not_dle in Hgt. congruence.
Qed.

Lemma sentinels_sifted s s' :
  sentinels s → sifted s s' → tail_kept (NumElements s) s s' →
  sentinels s'.
Proof.
  intros [Hcl Hab] [Hn _ _ _ Hocc _] Htail. split.
  - intros i e Hi. rewrite Hn in Hi. rewrite Htail by done. by apply Hcl.
  - intros e. rewrite Hocc. apply Hab.
Qed.

Lemma swap_bijection position s u s' :
  bijection s → sentinels s → position < NumElements s →
  swap position s = Ok u s' → bijection s'.
Proof.
  unfold swap. intros Hb Hsent Hlt Hrun.
  apply bind_Ok in Hrun as (okParent&s0&Hp&Hrun).
  apply inCorrectSpotwithRespectToParent_Ok in Hp as ->.
  apply bind_Ok in Hrun as ([]&s1&Hup&Hrun).
  apply bind_Ok in Hrun as (okChild&s2&Hc&Hrun).
  pose proof (inCorrectSpotwithRespectToChild_Ok _ _ _ _ Hc) as ->.
  assert (bijection s1 ∧ sentinels s1) as [Hb1 Hsent1].
  { clear Hrun Hc. destruct okParent; simpl in Hup.
    - by apply ret_Ok in Hup as [_ ->].
    - split; [by eapply shiftUp_rec_bijection|].
      eapply (sentinels_sifted s); [done|by eapply shiftUp_sifted|].
      by eapply shiftUp_rec_tail. }
  destruct okChild; simpl in Hrun.
  - by apply ret_Ok in Hrun as [_ ->].
  - unfold shiftDown in Hrun.
    apply bind_Ok in Hrun as (n&s0&[-> ->]%getNum_Ok&Hrun).
    by rewrite (shiftDown_rec_no_exchange _ _ _ _ _ Hsent1 Hc Hrun).
Qed.

Lemma Delete_bijection position s v s' :
  bijection s → sentinels s → Delete position s = Ok v s' → bijection s'.
Proof.
  intros Hb [Hcl Hab] Hrun.
  apply Delete_inv in Hrun
    as (e&He&<-&Hpos&[(->&q&ps&Hq&Hps&->)
                     |(Hne&l&q1&q2&ps1&ps2&Hl&Hq1&Hq2&Hp1&Hp2&Hs')]).
  - (* the last slot *)
    pose proof Hb as [B1 B2]. split; simpl.
    + intros w k. destruct (decide (w = V e)) as [->|Hw].
      { rewrite (rd_wr_eq _ _ _ _ Hps). by intros [= <-]. }
      rewrite (rd_wr_ne _ _ _ _ _ Hps) by done. intros Hwk Hk.
      destruct (B1 w k Hwk Hk) as (Hkn&x&Hx&HV).
      assert (k ≠ NumElements s - 1) as Hkl
        by (intros ->; simplify_eq; by apply Hw).
      split; [lia|]. exists x. split; [|done].
      by rewrite (rd_wr_ne _ _ _ _ _ Hq) by done.
    + intros k x Hk. rewrite (rd_wr_ne _ _ _ _ _ Hq) by lia. intros Hx.
      rewrite (rd_wr_ne _ _ _ _ _ Hps); [apply B2; [lia|done]|].
      intros Heq. assert (NumElements s - 1 = k); [|lia].
      eapply (bijection_inj s _ k e x); try done; lia.
  - (* another slot: the last entry moves in *)
    simpl in Hs'.
    set (n := NumElements s - 1) in *.
    assert (V l ≠ V e) as Hle.
    { intros Heq. apply Hne. symmetry.
      eapply (bijection_inj s n position l e); try done; lia. }
    assert (bijection (mkPQueue ps2 q2 n (Capacity s))) as Hb3.
    { pose proof Hb as [B1 B2]. split; simpl.
      - intros w k. rewrite (rd_two_writes _ _ _ _ _ _ _ _ Hp1 Hp2).
        destruct (decide (w = V e)) as [->|Hw]; [by intros [= <-]|].
        destruct (decide (w = V l)) as [->|Hwl].
        + intros [= <-] _. split; [lia|]. exists l. split; [|done].
          rewrite (rd_wr_ne _ _ _ _ _ Hq2) by lia. by eapply rd_wr_eq.
        + intros Hwk Hk. destruct (B1 w k Hwk Hk) as (Hkn&x&Hx&HV).
          assert (k ≠ n) by (intros ->; simplify_eq; by apply Hwl).
          assert (k ≠ position) by (intros ->; simplify_eq; by apply Hw).
          split; [lia|]. exists x. split; [|done].
          rewrite (rd_wr_ne _ _ _ _ _ Hq2) by done.
          by rewrite (rd_wr_ne _ _ _ _ _ Hq1) by done.
      - intros k x Hk. rewrite (rd_wr_ne _ _ _ _ _ Hq2) by lia.
        rewrite (rd_two_writes _ _ _ _ _ _ _ _ Hp1 Hp2).
        destruct (decide (k = position)) as [->|Hkp].
        + rewrite (rd_wr_eq _ _ _ _ Hq1). intros [= <-].
          rewrite decide_False by done. by rewrite decide_True.
        + rewrite (rd_wr_ne _ _ _ _ _ Hq1) by done. intros Hx.
          rewrite decide_False; last first.
          { intros Heq. apply Hkp.
            eapply (bijection_inj s k position x e); try done; lia. }
          rewrite decide_False; last first.
          { intros Heq. assert (k = n); [|lia].
            eapply (bijection_inj s k n x l); try done; lia. }
          apply B2; [lia|done]. }
    destruct Hs' as [->|Hswap]; [done|].
    eapply swap_bijection; [exact Hb3| | |exact Hswap].
    2:{ simpl. clear -Hpos Hne. subst n. lia. }
    split; simpl.
    + intros i x Hi. destruct (decide (i = n)) as [->|Hin].
      * rewrite (rd_wr_eq _ _ _ _ Hq2). by intros [= <-].
      * rewrite (rd_wr_ne _ _ _ _ _ Hq2) by done.
        rewrite (rd_wr_ne _ _ _ _ _ Hq1) by lia. apply Hcl. lia.
    + intros x (i&Hx)%list_elem_of_lookup. unfold occupied in Hx.
      simpl in Hx. apply lookup_take_Some in Hx as [Hx Hi].
      assert (rd q2 (Z.of_nat i) = Some x) as Hrd
        by (apply rd_Some; split; [lia|by rewrite Nat2Z.id]).
      rewrite (rd_wr_ne _ _ _ _ _ Hq2) in Hrd by lia.
      destruct (decide (Z.of_nat i = position)) as [Hip|Hip].
      * rewrite Hip, (rd_wr_eq _ _ _ _ Hq1) in Hrd. injection Hrd as <-.
        apply Hab. eapply (occupied_elem s n); [lia|done].
      * rewrite (rd_wr_ne _ _ _ _ _ Hq1) in Hrd by done.
        apply Hab. eapply (occupied_elem s (Z.of_nat i)); [lia|done].
Qed.

Lemma sentinels_of_tidy s :
  wf s → tidy s → above_sentinel s → sentinels s.
Proof.
  intros [Hlq _ _ _ _] [Hcl _] Hab. split; [|done].
  intros i e Hi He. pose proof (rd_lt _ _ _ He).
  rewrite Hcl in He by lia. by injection He as <-.
Qed.

Lemma above_Insert v d s u s' :
  above_sentinel s → dlt minus_one d = true → Insert v d s = Ok u s' →
  above_sentinel s'.
Proof.
  intros Hab Hd (_&_&_&_&_&_&_&Hocc&_)%Insert_Ok e. rewrite Hocc.
  intros [?| ->%list_elem_of_singleton]%elem_of_app; [by apply Hab|done].
Qed.

Lemma above_Delete position s v s' :
  above_sentinel s → Delete position s = Ok v s' → above_sentinel s'.
Proof.
  intros Hab (e0&_&_&_&_&_&_&_&_&Hocc&_)%Delete_Ok e He.
  apply Hab. rewrite Hocc. by right.
Qed.

Lemma above_filled N d : dlt minus_one d = true → above_sentinel (filled N d).
Proof.
  intros Hd e (i&He)%list_elem_of_lookup. unfold occupied, filled in He.
  simpl in He. apply lookup_take_Some in He as [He _].
  rewrite list_lookup_fmap in He.
  by apply fmap_Some in He as (v&_&->).
Qed.

Lemma reachable_above_reachable s : reachable_above s → reachable s.
Proof.
  induction 1; [by eapply reachable_new|by eapply reachable_Fill
               |by eapply reachable_Push|by eapply reachable_PopMin
               |by eapply reachable_Empty].
Qed.

Lemma reachable_above_invariant s :
  reachable_above s → bijection s ∧ above_sentinel s.
Proof.
  induction 1 as [N s Hnew|s d s' Hs [Hb Hab] Hd Hrun
                 |s v d s' Hs [Hb Hab] Hd Hrun
                 |s v s' Hs [Hb Hab] Hrun|s b s' Hs IH Hrun].
  - unfold PQueue_new in Hnew. destruct (Z.ltb_spec N 0); [done|].
    injection Hnew as <-. split.
    + split; simpl.
      * intros v i [? Hv]%rd_Some Hi.
        apply lookup_replicate in Hv as [-> _]. done.
      * intros i e Hi. lia.
    + intros e He. unfold occupied in He; simpl in He.
      by apply elem_of_nil in He.
  - apply reachable_above_reachable, wf_reachable in Hs.
    rewrite (Fill_filled d s Hs) in Hrun. injection Hrun as <-.
    split; [apply bijection_filled|by apply above_filled].
  - pose proof (reachable_above_reachable _ Hs) as Hr.
    pose proof (wf_reachable _ Hr) as Hwf.
    pose proof (tidy_reachable _ Hr) as Ht.
    apply Push_Ok in Hrun as (s1&Hins&[->|(position&_&_&Hdel)]).
    + split; [by eapply Insert_bijection|by eapply above_Insert].
    + split.
      * eapply Insert_bijection; [|exact Hins].
        eapply Delete_bijection; [done| |exact Hdel].
        by apply sentinels_of_tidy.
      * eapply above_Insert; [|done|exact Hins]. by eapply above_Delete.
  - pose proof (reachable_above_reachable _ Hs) as Hr.
    apply PopMin_Ok in Hrun as [_ Hdel]. split.
    + eapply Delete_bijection; [done| |exact Hdel].
      apply sentinels_of_tidy;
        [by apply wf_reachable|by apply tidy_reachable|done].
    + by eapply above_Delete.
  - by apply Empty_Ok in Hrun as [_ ->].
Qed.

(** X15.  As long as every distance pushed or filled in is above -1.0,
    positions and slots correspond exactly (I2) in every queue reached:
    the reverse index is right for the non-negative distances of a
    shortest-path search. *)
Theorem bijection_above_sentinel s :
  reachable_above s → bijection s.
Proof. by intros [? _]%reachable_above_invariant. Qed.

(** [Insert] throws only from its two checks, before any write. *)
Lemma Insert_Throw v d s e s' :
  Insert v d s = Throw e s' →
  s' = s ∧ (¬ (0 ≤ v < Capacity s) ∨ rd (Positions s) v ≠ Some (-1)).
Proof.
  unfold Insert. rewrite bind_getCap. intros Hrun.
  destruct (_ || _) eqn:Erange in Hrun.
  { injection Hrun as _ <-. split; [done|]. left.
    apply orb_true_iff in Erange as [?%Z.ltb_lt|E2]; [lia|].
    rewrite Z.geb_leb in E2. apply Z.leb_le in E2. lia. }
  apply bind_Throw in Hrun as [Hrun|(p&s0&[Hp ->]%getP_Ok&Hrun)].
  { exfalso. revert Hrun. apply never_throws_getP. }
  destruct (Z.eqb_spec p (-1)) as [->|Hne]; simpl in Hrun.
  - exfalso. revert Hrun. cbv zeta.
    apply never_throws_bind; never_throws_auto.
  - injection Hrun as _ <-. split; [done|]. right. congruence.
Qed.

(** X16.  As long as every distance pushed or filled in is above -1.0,
    [Push] throws only for a vertex out of range, leaving the queue as it
    was: its internal-error exceptions are never thrown. *)
Theorem Push_throws_only_out_of_range s v d e s' :
  reachable_above s →
  Push v d s = Throw e s' →
  ¬ (0 ≤ v < Capacity s) ∧ s' = s.
Proof.
  intros Hs Hrun.
  pose proof (reachable_above_invariant _ Hs) as [Hb Hab].
  pose proof (reachable_above_reachable _ Hs) as Hr.
  pose proof (wf_reachable _ Hr) as Hwf.
  pose proof (tidy_reachable _ Hr) as Ht.
  unfold Push in Hrun. rewrite bind_getCap in Hrun.
  destruct (_ || _) eqn:Erange in Hrun.
  { injection Hrun as _ <-. split; [|done].
    apply orb_true_iff in Erange as [?%Z.ltb_lt|E2]; [lia|].
    rewrite Z.geb_leb in E2. apply Z.leb_le in E2. lia. }
  apply orb_false_iff in Erange as [?%Z.ltb_ge E2].
  rewrite Z.geb_leb in E2. apply Z.leb_gt in E2.
  exfalso.
  apply bind_Throw in Hrun as [Hrun|(p&s0&[Hp ->]%getP_Ok&Hrun)].
  { revert Hrun. apply never_throws_getP. }
  destruct (Z.geb_spec p 0) as [Hp0|Hp0].
  - (* the vertex has a position: it is deleted first *)
    destruct (proj1 Hb v p Hp) as (Hpn&x&Hx&HV); [lia|].
    apply bind_Throw in Hrun as [Hrun|([]&s1&Hdel&Hrun)].
    + apply bind_Throw in Hrun as [Hrun|(dv&s1&Hdel&Hrun)].
      { apply Delete_Throw in Hrun as [_ Hrange]. lia. }
      pose proof (Delete_Ok _ _ _ _ Hdel)
        as (x'&Hx'&HV'&_&_&_&_&_&Hlp1&Hocc&_).
      assert (x' = x) as -> by congruence.
      destruct (Z.eqb_spec dv v) as [->|]; [|congruence]. simpl in Hrun.
      assert (rd (Positions s1) v = Some (-1)) as Hp1.
      { destruct (rd_is_Some (Positions s1) v) as [p1 Hp1].
        { rewrite Hlp1. by eapply rd_lt. }
        destruct (decide (p1 = -1)) as [->|Hne]; [done|]. exfalso.
        assert (bijection s1) as [B1 _].
        { eapply Delete_bijection; [done| |exact Hdel].
          by apply sentinels_of_tidy. }
        destruct (B1 v p1 Hp1 Hne) as (Hp1n&y&Hy&HVy).
        pose proof (wf_unique _ Hwf) as Hnd. unfold vertices in Hnd.
        rewrite Hocc, fmap_cons in Hnd. apply NoDup_cons in Hnd as [Hnot _].
        apply Hnot. rewrite HV, <-HVy. apply list_elem_of_fmap_2.
        by eapply (occupied_elem s1 p1). }
      rewrite (bind_getP _ _ _ _ Hp1) in Hrun. done.
    + apply bind_Ok in Hdel as (dv&s2&Hdel&Hrest).
      destruct (negb (dv =? v)); [done|].
      apply bind_Ok in Hrest as (p1&s3&[Hp1 ->]%getP_Ok&Hrest).
      destruct (Z.eqb_spec p1 (-1)) as [->|]; [|done].
      apply ret_Ok in Hrest as [_ ->].
      apply Insert_Throw in Hrun as [_ [Hrange|Hne]]; [|done].
      apply Delete_Ok in Hdel as (_&_&_&_&_&_&Hc&_). lia.
  - rewrite bind_ret in Hrun.
    apply Insert_Throw in Hrun as [_ [Hrange|Hne]]; [lia|].
    apply Hne. f_equal.
    destruct (decide (p = -1)) as [->|Hp1]; [done|].
    destruct (proj1 Hb v p Hp Hp1) as (Hpn&_). lia.
Qed.

End AboveSentinel.

Lemma reachable_above_Push_all pushes s u s' :
  reachable_above s →
  Forall (λ p : Z * dist, dlt minus_one p.2 = true) pushes →
  Push_all pushes s = Ok u s' → reachable_above s'.
Proof.
  revert s. induction pushes as [|[v d] pushes IH]; intros s Hs Hall Hrun;
    simpl in Hrun.
  - by apply ret_Ok in Hrun as [_ ->].
  - apply bind_Ok in Hrun as ([]&s1&Hpush&Hrun).
    apply Forall_cons in Hall as [Hd Hall].
    apply (IH s1); [|done..]. by eapply reachable_above_Push.
Qed.

Lemma reachable_Push_all pushes s u s' :
  reachable s → Push_all pushes s = Ok u s' → reachable s'.
Proof.
  revert s. induction pushes as [|[v d] pushes IH]; intros s Hs Hrun;
    simpl in Hrun.
  - by apply ret_Ok in Hrun as [_ ->].
  - apply bind_Ok in Hrun as ([]&s1&Hpush&Hrun).
    apply (IH s1); [|done]. by eapply reachable_Push.
Qed.

Lemma reachable_filled N d : 0 ≤ N → reachable (filled N d).
Proof.
  intros HN.
  destruct (PQueue_new N) as [e|s0] eqn:Hnew.
  { unfold PQueue_new in Hnew. by destruct (Z.ltb_spec N 0); [lia|]. }
  assert (Capacity s0 = N) as Hc.
  { unfold PQueue_new in Hnew. destruct (N <? 0); [done|].
    by injection Hnew as <-. }
  eapply (reachable_Fill s0 d); [by eapply reachable_new|].
  rewrite <-Hc. apply Fill_filled. by eapply wf_new.
Qed.

Lemma reachable_above_filled N d :
  0 ≤ N → dlt minus_one d = true → reachable_above (filled N d).
Proof.
  intros HN Hd.
  destruct (PQueue_new N) as [e|s0] eqn:Hnew.
  { unfold PQueue_new in Hnew. by destruct (Z.ltb_spec N 0); [lia|]. }
  assert (Capacity s0 = N) as Hc.
  { unfold PQueue_new in Hnew. destruct (N <? 0); [done|].
    by injection Hnew as <-. }
  eapply (reachable_above_Fill s0 d); [by eapply reachable_above_new|done|].
  rewrite <-Hc. apply Fill_filled. by eapply wf_new.
Qed.

End PQueue.

(** * Runs with integer distances *)

Lemma reachable_from_new (N : Z) (cs : list (call (dist := Z))) s :
  from_new N (do_calls cs) = Some (Ok () s) → reachable s.
Proof.
  unfold from_new. destruct (PQueue_new N) as [|s0] eqn:Hnew; [done|].
  intros [= Hrun]. eapply reachable_do_calls; [|exact Hrun].
  by eapply reachable_new.
Qed.

(** C1.  Capacity 4, [Push(0,1)], [Push(1,2)], [Push(2,3)], [Push(3,4)],
    [PopMin]: in the queue reached, [PopMin] returns vertex 3, whose
    distance is 4, while vertex 1 is present with distance 2. *)
Theorem PopMin_returns_non_minimum :
  let s := {| Positions := [-1; 1; 2; 0];
              Queue := [mkElem 3 4; mkElem 1 2; mkElem 2 3; mkElem (-1) (-1)];
              NumElements := 3; Capacity := 4 |} in
  from_new 4 (do_calls [CallPush 0 1; CallPush 1 2; CallPush 2 3;
                        CallPush 3 4; CallPopMin]) = Some (Ok () s) ∧
  reachable s ∧
  occupied s = [mkElem 3 4; mkElem 1 2; mkElem 2 3] ∧
  (∃ s', PopMin s = Ok 3 s') ∧
  ¬ PopMin_returns_minimum s.
Proof.
  intros s.
  assert (from_new 4 (do_calls [CallPush 0 1; CallPush 1 2; CallPush 2 3;
                                CallPush 3 4; CallPopMin]) = Some (Ok () s))
    as Hrun by (vm_compute; reflexivity).
  assert (occupied s = [mkElem 3 4; mkElem 1 2; mkElem 2 3]) as Hocc
    by (vm_compute; reflexivity).
  split_and!; [exact Hrun|exact (reachable_from_new _ _ _ Hrun)|exact Hocc
              |eexists; vm_compute; reflexivity|].
  intros Hmin. edestruct (Hmin 3) as (e&He&HV&Hle); [vm_compute; reflexivity|].
  specialize (Hle (mkElem 1 2)). rewrite Hocc in He, Hle.
  assert (e = mkElem 3 4) as ->.
  { apply list_elem_of_In in He. simpl in He.
    destruct He as [<-|[<-|[<-|[]]]];
      [reflexivity|discriminate HV|discriminate HV]. }
  assert (dle (D (mkElem 3 4)) (D (mkElem 1 2)) = false) as Hgt
    by (vm_compute; reflexivity).
  rewrite Hle in Hgt; [discriminate|]. right. left.
Qed.

(** C2.  The same queue: slot 1 holds distance 2 under a root of
    distance 4, so the heap order I1 does not hold after these successful
    calls. *)
Theorem heap_order_broken_by_PopMin :
  let s := {| Positions := [-1; 1; 2; 0];
              Queue := [mkElem 3 4; mkElem 1 2; mkElem 2 3; mkElem (-1) (-1)];
              NumElements := 3; Capacity := 4 |} in
  from_new 4 (do_calls [CallPush 0 1; CallPush 1 2; CallPush 2 3;
                        CallPush 3 4; CallPopMin]) = Some (Ok () s) ∧
  reachable s ∧
  ¬ heap_order s.
Proof.
  intros s.
  assert (from_new 4 (do_calls [CallPush 0 1; CallPush 1 2; CallPush 2 3;
                                CallPush 3 4; CallPopMin]) = Some (Ok () s))
    as Hrun by (vm_compute; reflexivity).
  split_and!; [exact Hrun|exact (reachable_from_new _ _ _ Hrun)|].
  intros Hheap.
  assert (dge (D (mkElem 1 2)) (D (mkElem 3 4)) = false) as Hlt
    by (vm_compute; reflexivity).
  rewrite (Hheap 1 (mkElem 1 2) (mkElem 3 4)) in Hlt;
    [discriminate|simpl; lia|vm_compute; reflexivity|vm_compute; reflexivity].
Qed.

(** C3.  Capacity 4, [Push(0,-10)], [Push(1,-5)], [Push(2,-2)], [PopMin]:
    [shiftDown] exchanges slots 0 and 1 and writes [Positions[0]] and
    [Positions[1]], the entries of the slot numbers instead of those of the
    vertices moved.  Afterwards the popped vertex 0 has position 1, and
    vertex 2, which is in slot 1, has position 0. *)
Theorem bijection_broken_by_shiftDown :
  let s := {| Positions := [1; 0; 0; -1];
              Queue := [mkElem 1 (-5); mkElem 2 (-2);
                        mkElem (-1) (-1); mkElem (-1) (-1)];
              NumElements := 2; Capacity := 4 |} in
  from_new 4 (do_calls [CallPush 0 (-10); CallPush 1 (-5); CallPush 2 (-2);
                        CallPopMin]) = Some (Ok () s) ∧
  reachable s ∧
  ¬ bijection s.
Proof.
  intros s.
  assert (from_new 4 (do_calls [CallPush 0 (-10); CallPush 1 (-5);
                                CallPush 2 (-2); CallPopMin])
          = Some (Ok () s)) as Hrun by (vm_compute; reflexivity).
  split_and!; [exact Hrun|exact (reachable_from_new _ _ _ Hrun)|].
  intros [Hpos _].
  destruct (Hpos 0 1) as (_&e&He&HV); [vm_compute; reflexivity|lia|].
  assert (rd (Queue s) 1 = Some (mkElem 2 (-2))) as He'
    by (vm_compute; reflexivity).
  rewrite He' in He. injection He as <-. discriminate HV.
Qed.

(** C4.  Capacity 4, distances 4 > 3 > 2 > 1 pushed for vertices 0, 1, 2,
    3: the four calls of [PopMin] return 3, 0, 1, 2, not 3, 2, 1, 0. *)
Theorem PopMin_order_descending_pushes :
  ∃ s, from_new 4 (bind (Push_all [(0, 4); (1, 3); (2, 2); (3, 1)])
                        (λ _, PopMin_times 4))
       = Some (Ok [3; 0; 1; 2] s).
Proof. eexists. vm_compute. reflexivity. Qed.

(** C10.  Capacity 2, [Push(0,1)], [Push(1,2)]: the queue is reachable and
    full, and [PopMin] reads [Queue[2]], one past the end of the array of
    two elements, when it looks for the children of slot 0. *)
Theorem PopMin_reads_past_the_end :
  let s := {| Positions := [0; 1];
              Queue := [mkElem 0 1; mkElem 1 2];
              NumElements := 2; Capacity := 2 |} in
  from_new 2 (do_calls [CallPush 0 1; CallPush 1 2]) = Some (Ok () s) ∧
  reachable s ∧
  Z.of_nat (length (Queue s)) = 2 ∧
  PopMin s = UB "Queue" 2.
Proof.
  intros s.
  assert (from_new 2 (do_calls [CallPush 0 1; CallPush 1 2])
          = Some (Ok () s)) as Hrun by (vm_compute; reflexivity).
  split_and!; [exact Hrun|exact (reachable_from_new _ _ _ Hrun)
              |reflexivity|vm_compute; reflexivity].
Qed.

(** * The general theorems at concrete queues *)

(** Scenario B: capacity 3 holding (1, 50); vertex 0 is pushed with distance
    100 and then with distance 10. *)
Lemma Push_twice_one_entry_witness :
  reachable
    {| Positions := [-1; 0; -1];
       Queue := [mkElem 1 50; mkElem (-1) (-1); mkElem (-1) (-1)];
       NumElements := 1; Capacity := 3 |} ∧
  Push 0 100
    {| Positions := [-1; 0; -1];
       Queue := [mkElem 1 50; mkElem (-1) (-1); mkElem (-1) (-1)];
       NumElements := 1; Capacity := 3 |} =
  Ok () {| Positions := [1; 0; -1];
           Queue := [mkElem 1 50; mkElem 0 100; mkElem (-1) (-1)];
           NumElements := 2; Capacity := 3 |} ∧
  Push 0 10
    {| Positions := [1; 0; -1];
       Queue := [mkElem 1 50; mkElem 0 100; mkElem (-1) (-1)];
       NumElements := 2; Capacity := 3 |} =
  Ok () {| Positions := [0; 1; -1];
           Queue := [mkElem 0 10; mkElem 1 50; mkElem (-1) (-1)];
           NumElements := 2; Capacity := 3 |} ∧
  entries_of 0
    {| Positions := [0; 1; -1];
       Queue := [mkElem 0 10; mkElem 1 50; mkElem (-1) (-1)];
       NumElements := 2; Capacity := 3 |} = [mkElem 0 10].
Proof.
  assert (reachable
    {| Positions := [-1; 0; -1];
       Queue := [mkElem 1 50; mkElem (-1) (-1); mkElem (-1) (-1)];
       NumElements := 1; Capacity := 3 |}) as Hs.
  { apply (reachable_from_new 3 [CallPush 1 50]). vm_compute. reflexivity. }
  split; [exact Hs|]. split; [vm_compute; reflexivity|].
  split; [vm_compute; reflexivity|].
  eapply (Push_twice_one_entry _ 0 100 10); [exact Hs| |];
    vm_compute; reflexivity.
Defined.

(** Scenario A: capacity 5, three pushes, three pops. *)
Lemma Empty_after_pushes_and_pops_witness :
  PQueue_new 5 =
  inr {| Positions := [-1; -1; -1; -1; -1];
         Queue := replicate 5 (mkElem (-1) (-1));
         NumElements := 0; Capacity := 5 |} ∧
  NoDup [(0, 10); (1, 9); (2, 8)].*1 ∧
  Push_all [(0, 10); (1, 9); (2, 8)]
    {| Positions := [-1; -1; -1; -1; -1];
       Queue := replicate 5 (mkElem (-1) (-1));
       NumElements := 0; Capacity := 5 |} =
  Ok () {| Positions := [1; 2; 0; -1; -1];
           Queue := [mkElem 2 8; mkElem 0 10; mkElem 1 9;
                     mkElem (-1) (-1); mkElem (-1) (-1)];
           NumElements := 3; Capacity := 5 |} ∧
  PopMin_times 3
    {| Positions := [1; 2; 0; -1; -1];
       Queue := [mkElem 2 8; mkElem 0 10; mkElem 1 9;
                 mkElem (-1) (-1); mkElem (-1) (-1)];
       NumElements := 3; Capacity := 5 |} =
  Ok [2; 1; 0]
     {| Positions := [-1; -1; -1; -1; -1];
        Queue := replicate 5 (mkElem (-1) (-1));
        NumElements := 0; Capacity := 5 |} ∧
  (3 ≤ length [(0, 10); (1, 9); (2, 8)])%nat ∧
  ∃ b, Empty {| Positions := [-1; -1; -1; -1; -1];
                Queue := replicate 5 (mkElem (-1) (-1));
                NumElements := 0; Capacity := 5 |} =
       Ok b {| Positions := [-1; -1; -1; -1; -1];
               Queue := replicate 5 (mkElem (-1) (-1));
               NumElements := 0; Capacity := 5 |} ∧
       (b = true ↔ length [(0, 10); (1, 9); (2, 8)] = 3%nat).
Proof.
  assert (NoDup [(0, 10); (1, 9); (2, 8)].*1) as Hnd.
  { apply (bool_decide_unpack _). vm_compute. exact I. }
  split; [vm_compute; reflexivity|]. split; [exact Hnd|].
  split; [vm_compute; reflexivity|]. split; [vm_compute; reflexivity|].
  split; [simpl; lia|].
  eapply (Empty_after_pushes_and_pops 5 _ [(0, 10); (1, 9); (2, 8)] _ 3);
    [vm_compute; reflexivity|exact Hnd|vm_compute; reflexivity
    |vm_compute; reflexivity|simpl; lia].
Defined.

(** Capacities 3 and -1. *)
Lemma PQueue_new_spec_witness :
  (-1 < 0 ∧ ∃ e, PQueue_new (dist := Z) (-1) = inl e) ∧
  (0 ≤ 3 ∧ ∃ s, PQueue_new (dist := Z) 3 = inr s ∧
     NumElements s = 0 ∧ Capacity s = 3 ∧ occupied s = [] ∧
     Z.of_nat (length (Positions s)) = 3 ∧
     Z.of_nat (length (Queue s)) = 3 ∧
     ∀ v, 0 ≤ v < 3 → rd (Positions s) v = Some (-1)).
Proof.
  split.
  - split; [lia|]. apply (proj1 (PQueue_new_spec (dist := Z) (-1))). lia.
  - split; [lia|]. apply (proj2 (PQueue_new_spec (dist := Z) 3)). lia.
Defined.

(** Scenario D: capacity 5, vertex 5. *)
Lemma Push_out_of_range_witness :
  ¬ (0 ≤ 5 < 5) ∧
  Push 5 1 {| Positions := [-1; -1; -1; -1; -1];
              Queue := replicate 5 (mkElem (-1) (-1));
              NumElements := 0; Capacity := 5 |} =
  Throw (logic_error "Invalid vertex passed to PQueue::Push, must be 0..N-1")
        {| Positions := [-1; -1; -1; -1; -1];
           Queue := replicate 5 (mkElem (-1) (-1));
           NumElements := 0; Capacity := 5 |}.
Proof.
  split; [lia|].
  apply (Push_out_of_range
           {| Positions := [-1; -1; -1; -1; -1];
              Queue := replicate 5 (mkElem (-1) (-1));
              NumElements := 0; Capacity := 5 |} 5 1).
  simpl. lia.
Defined.

(** [shiftUp] from the last of three occupied slots, and from the root. *)
Lemma public_calls_terminate_witness :
  (Z.to_nat 2 < 3)%nat ∧
  shiftUp_rec 3 2
    {| Positions := [0; 1; 2];
       Queue := [mkElem 0 10; mkElem 1 9; mkElem 2 8];
       NumElements := 3; Capacity := 3 |} ≠ OutOfFuel ∧
  shiftUp_rec 1 0
    {| Positions := [0; 1; 2];
       Queue := [mkElem 0 10; mkElem 1 9; mkElem 2 8];
       NumElements := 3; Capacity := 3 |} ≠ OutOfFuel.
Proof.
  pose proof (public_calls_terminate (dist := Z))
    as (_&_&_&_&_&_&Hup&_&Hroot).
  split; [simpl; lia|]. split; [apply Hup; simpl; lia|apply Hroot].
Defined.

(** * The further theorems at concrete queues *)

(** An empty queue of capacity 5. *)
Lemma PopMin_throws_iff_empty_witness :
  reachable {| Positions := replicate 5 (-1);
               Queue := replicate 5 (mkElem (-1) (-1));
               NumElements := 0; Capacity := 5 |} ∧
  PopMin {| Positions := replicate 5 (-1);
            Queue := replicate 5 (mkElem (-1) (-1));
            NumElements := 0; Capacity := 5 |} =
  Throw (logic_error "stack empty!")
        {| Positions := replicate 5 (-1);
           Queue := replicate 5 (mkElem (-1) (-1));
           NumElements := 0; Capacity := 5 |}.
Proof.
  assert (reachable {| Positions := replicate 5 (-1);
                       Queue := replicate 5 (mkElem (-1) (-1));
                       NumElements := 0; Capacity := 5 |}) as Hs.
  { apply (reachable_new 5). vm_compute. reflexivity. }
  split; [exact Hs|].
  apply (PopMin_throws_iff_empty _ _ _ Hs). split_and!; reflexivity.
Defined.

(** The queue of capacity 5 filled with distance 7. *)
Lemma reachable_invariants_witness :
  reachable (filled 5 7) ∧
  Z.of_nat (length (Queue (filled 5 7))) = Capacity (filled 5 7) ∧
  Z.of_nat (length (Positions (filled 5 7))) = Capacity (filled 5 7) ∧
  0 ≤ NumElements (filled 5 7) ≤ Capacity (filled 5 7) ∧
  NoDup (vertices (filled 5 7)) ∧
  (∀ w, rd (Positions (filled 5 7)) w = Some (-1) →
        w ∉ vertices (filled 5 7)).
Proof.
  assert (reachable (filled 5 7)) as Hs by (apply reachable_filled; lia).
  split; [exact Hs|]. exact (reachable_invariants _ Hs).
Defined.

(** Capacity 3 holding (1, 9) and (0, 10). *)
Lemma reachable_tidy_witness :
  reachable {| Positions := [1; 0; -1];
               Queue := [mkElem 1 9; mkElem 0 10; mkElem (-1) (-1)];
               NumElements := 2; Capacity := 3 |} ∧
  (∀ i, 2 ≤ i < 3 →
        rd [mkElem 1 9; mkElem 0 10; mkElem (-1) (-1)] i =
        Some (mkElem (-1) (-1))) ∧
  (∀ e, e ∈ occupied {| Positions := [1; 0; -1];
                        Queue := [mkElem 1 9; mkElem 0 10; mkElem (-1) (-1)];
                        NumElements := 2; Capacity := 3 |} →
        0 ≤ V e < 3).
Proof.
  assert (reachable {| Positions := [1; 0; -1];
               Queue := [mkElem 1 9; mkElem 0 10; mkElem (-1) (-1)];
               NumElements := 2; Capacity := 3 |}) as Hs.
  { apply (reachable_from_new 3 [CallPush 0 10; CallPush 1 9]).
    vm_compute. reflexivity. }
  split; [exact Hs|]. exact (reachable_tidy _ Hs).
Defined.

(** Decrease-key on the queue of capacity 3 filled with distance 7. *)
Lemma Push_replaces_entry_witness :
  reachable (filled 3 7) ∧
  Push 0 10 (filled 3 7) =
  Ok () {| Positions := [2; 1; 0];
           Queue := [mkElem 2 7; mkElem 1 7; mkElem 0 10];
           NumElements := 3; Capacity := 3 |} ∧
  occupied {| Positions := [2; 1; 0];
              Queue := [mkElem 2 7; mkElem 1 7; mkElem 0 10];
              NumElements := 3; Capacity := 3 |} ≡ₚ
  filter (λ e, V e ≠ 0) (occupied (filled 3 7)) ++ [mkElem 0 10].
Proof.
  assert (reachable (filled 3 7)) as Hs by (apply reachable_filled; lia).
  split; [exact Hs|]. split; [vm_compute; reflexivity|].
  apply (Push_replaces_entry _ 0 10 _ Hs). vm_compute. reflexivity.
Defined.

Lemma PopMin_removes_root_witness :
  PopMin (filled 3 7) =
  Ok 0 {| Positions := [-1; 1; 0];
          Queue := [mkElem 2 7; mkElem 1 7; mkElem (-1) (-1)];
          NumElements := 2; Capacity := 3 |} ∧
  ∃ e, rd (Queue (filled 3 7)) 0 = Some e ∧ V e = 0 ∧
       occupied (filled 3 7) ≡ₚ
       e :: occupied {| Positions := [-1; 1; 0];
                        Queue := [mkElem 2 7; mkElem 1 7; mkElem (-1) (-1)];
                        NumElements := 2; Capacity := 3 |} ∧
       NumElements {| Positions := [-1; 1; 0];
                      Queue := [mkElem 2 7; mkElem 1 7; mkElem (-1) (-1)];
                      NumElements := 2; Capacity := 3 |} =
       NumElements (filled 3 7) - 1.
Proof.
  split; [vm_compute; reflexivity|].
  apply (PopMin_removes_root (filled 3 7) 0). vm_compute. reflexivity.
Defined.

(** Filling again, with another distance. *)
Lemma Fill_result_witness :
  reachable (filled 5 7) ∧
  Fill 9 (filled 5 7) = Ok () (filled (Capacity (filled 5 7)) 9) ∧
  bijection (filled (Capacity (filled 5 7)) 9).
Proof.
  assert (reachable (filled 5 7)) as Hs by (apply reachable_filled; lia).
  split; [exact Hs|]. exact (Fill_result _ 9 Hs).
Defined.

Lemma Fill_as_pushes_witness :
  PQueue_new 4 =
  inr {| Positions := replicate 4 (-1);
         Queue := replicate 4 (mkElem (-1) (-1));
         NumElements := 0; Capacity := 4 |} ∧
  Push_all ((λ v, (v, 7)) <$> seqZ 0 4)
    {| Positions := replicate 4 (-1);
       Queue := replicate 4 (mkElem (-1) (-1));
       NumElements := 0; Capacity := 4 |} =
  Fill 7 {| Positions := replicate 4 (-1);
            Queue := replicate 4 (mkElem (-1) (-1));
            NumElements := 0; Capacity := 4 |}.
Proof.
  split; [vm_compute; reflexivity|].
  apply (Fill_as_pushes 4 7). vm_compute. reflexivity.
Defined.

Lemma Push_PopMin_on_empty_witness :
  reachable {| Positions := replicate 5 (-1);
               Queue := replicate 5 (mkElem (-1) (-1));
               NumElements := 0; Capacity := 5 |} ∧
  rd (replicate 5 (-1)) 3 = Some (-1) ∧
  bind (Push 3 7) (λ _, PopMin)
    {| Positions := replicate 5 (-1);
       Queue := replicate 5 (mkElem (-1) (-1));
       NumElements := 0; Capacity := 5 |} =
  Ok 3 {| Positions := replicate 5 (-1);
          Queue := replicate 5 (mkElem (-1) (-1));
          NumElements := 0; Capacity := 5 |}.
Proof.
  assert (reachable {| Positions := replicate 5 (-1);
                       Queue := replicate 5 (mkElem (-1) (-1));
                       NumElements := 0; Capacity := 5 |}) as Hs.
  { apply (reachable_new 5). vm_compute. reflexivity. }
  split; [exact Hs|]. split; [vm_compute; reflexivity|].
  apply (Push_PopMin_on_empty _ 3 7 Hs); vm_compute; reflexivity.
Defined.

Lemma heap_order_two_pushes :
  heap_order {| Positions := [1; 0; -1];
                Queue := [mkElem 1 9; mkElem 0 10; mkElem (-1) (-1)];
                NumElements := 2; Capacity := 3 |}.
Proof.
  apply (Push_all_fresh_heap_order [(0, 10); (1, 9)]
           {| Positions := replicate 3 (-1);
              Queue := replicate 3 (mkElem (-1) (-1));
              NumElements := 0; Capacity := 3 |} ()).
  - apply (bool_decide_unpack _). vm_compute. exact I.
  - intros v _. vm_compute. apply not_elem_of_nil.
  - intros i e p Hi. simpl in Hi. lia.
  - vm_compute. reflexivity.
Qed.

(** Capacity 3 holding (1, 9) and (0, 10); vertex 2 is pushed. *)
Lemma Push_fresh_keeps_heap_order_witness :
  heap_order {| Positions := [1; 0; -1];
                Queue := [mkElem 1 9; mkElem 0 10; mkElem (-1) (-1)];
                NumElements := 2; Capacity := 3 |} ∧
  (2 ∉ vertices {| Positions := [1; 0; -1];
                   Queue := [mkElem 1 9; mkElem 0 10; mkElem (-1) (-1)];
                   NumElements := 2; Capacity := 3 |}) ∧
  Push 2 8 {| Positions := [1; 0; -1];
              Queue := [mkElem 1 9; mkElem 0 10; mkElem (-1) (-1)];
              NumElements := 2; Capacity := 3 |} =
  Ok () {| Positions := [1; 2; 0];
           Queue := [mkElem 2 8; mkElem 0 10; mkElem 1 9];
           NumElements := 3; Capacity := 3 |} ∧
  heap_order {| Positions := [1; 2; 0];
                Queue := [mkElem 2 8; mkElem 0 10; mkElem 1 9];
                NumElements := 3; Capacity := 3 |}.
Proof.
  assert (2 ∉ vertices {| Positions := [1; 0; -1];
                  Queue := [mkElem 1 9; mkElem 0 10; mkElem (-1) (-1)];
                  NumElements := 2; Capacity := 3 |}) as Hv.
  { apply (bool_decide_unpack _). vm_compute. exact I. }
  split; [exact heap_order_two_pushes|]. split; [exact Hv|].
  split; [vm_compute; reflexivity|].
  apply (Push_fresh_keeps_heap_order _ 2 8 _ heap_order_two_pushes Hv).
  vm_compute. reflexivity.
Defined.

Lemma PopMin_minimum_of_heap_witness :
  heap_order {| Positions := [1; 0; -1];
                Queue := [mkElem 1 9; mkElem 0 10; mkElem (-1) (-1)];
                NumElements := 2; Capacity := 3 |} ∧
  PopMin_returns_minimum
    {| Positions := [1; 0; -1];
       Queue := [mkElem 1 9; mkElem 0 10; mkElem (-1) (-1)];
       NumElements := 2; Capacity := 3 |}.
Proof.
  split; [exact heap_order_two_pushes|].
  exact (PopMin_minimum_of_heap _ heap_order_two_pushes).
Defined.

Lemma PopMin_after_distinct_pushes_witness :
  PQueue_new 3 =
  inr {| Positions := replicate 3 (-1);
         Queue := replicate 3 (mkElem (-1) (-1));
         NumElements := 0; Capacity := 3 |} ∧
  NoDup [(0, 10); (1, 9)].*1 ∧
  Push_all [(0, 10); (1, 9)]
    {| Positions := replicate 3 (-1);
       Queue := replicate 3 (mkElem (-1) (-1));
       NumElements := 0; Capacity := 3 |} =
  Ok () {| Positions := [1; 0; -1];
           Queue := [mkElem 1 9; mkElem 0 10; mkElem (-1) (-1)];
           NumElements := 2; Capacity := 3 |} ∧
  heap_order {| Positions := [1; 0; -1];
                Queue := [mkElem 1 9; mkElem 0 10; mkElem (-1) (-1)];
                NumElements := 2; Capacity := 3 |} ∧
  PopMin_returns_minimum
    {| Positions := [1; 0; -1];
       Queue := [mkElem 1 9; mkElem 0 10; mkElem (-1) (-1)];
       NumElements := 2; Capacity := 3 |}.
Proof.
  assert (NoDup [(0, 10); (1, 9)].*1) as Hnd.
  { apply (bool_decide_unpack _). vm_compute. exact I. }
  split; [vm_compute; reflexivity|]. split; [exact Hnd|].
  split; [vm_compute; reflexivity|].
  apply (PopMin_after_distinct_pushes 3
           {| Positions := replicate 3 (-1);
              Queue := replicate 3 (mkElem (-1) (-1));
              NumElements := 0; Capacity := 3 |} [(0, 10); (1, 9)]);
    [vm_compute; reflexivity|exact Hnd|vm_compute; reflexivity].
Defined.

Lemma Push_of_absent_vertex_succeeds_witness :
  reachable {| Positions := [1; 0; -1];
               Queue := [mkElem 1 9; mkElem 0 10; mkElem (-1) (-1)];
               NumElements := 2; Capacity := 3 |} ∧
  0 ≤ 2 < 3 ∧
  rd [1; 0; -1] 2 = Some (-1) ∧
  ∃ s', Push 2 8 {| Positions := [1; 0; -1];
                    Queue := [mkElem 1 9; mkElem 0 10; mkElem (-1) (-1)];
                    NumElements := 2; Capacity := 3 |} = Ok () s'.
Proof.
  assert (reachable {| Positions := [1; 0; -1];
               Queue := [mkElem 1 9; mkElem 0 10; mkElem (-1) (-1)];
               NumElements := 2; Capacity := 3 |}) as Hs.
  { apply (reachable_from_new 3 [CallPush 0 10; CallPush 1 9]).
    vm_compute. reflexivity. }
  split; [exact Hs|]. split; [lia|]. split; [vm_compute; reflexivity|].
  apply (Push_of_absent_vertex_succeeds _ 2 8 Hs);
    [simpl; lia|vm_compute; reflexivity].
Defined.

Lemma PopMin_succeeds_from_capacity_3_witness :
  reachable (filled 3 7) ∧
  NumElements (filled 3 7) ≠ 0 ∧
  3 ≤ Capacity (filled 3 7) ∧
  ∃ v s', PopMin (filled 3 7) = Ok v s'.
Proof.
  assert (reachable (filled 3 7)) as Hs by (apply reachable_filled; lia).
  split; [exact Hs|]. split; [discriminate|]. split; [simpl; lia|].
  apply (PopMin_succeeds_from_capacity_3 _ Hs); [discriminate|].
  left. simpl. lia.
Defined.

Lemma reachable_above_two_pushes :
  reachable_above {| Positions := [1; 0; -1];
                     Queue := [mkElem 1 9; mkElem 0 10; mkElem (-1) (-1)];
                     NumElements := 2; Capacity := 3 |}.
Proof.
  apply (reachable_above_Push_all [(0, 10); (1, 9)]
           {| Positions := replicate 3 (-1);
              Queue := replicate 3 (mkElem (-1) (-1));
              NumElements := 0; Capacity := 3 |} ()).
  - apply (reachable_above_new 3). vm_compute. reflexivity.
  - repeat constructor.
  - vm_compute. reflexivity.
Qed.

Lemma Push_fresh_keeps_bijection_witness :
  bijection {| Positions := [1; 0; -1];
               Queue := [mkElem 1 9; mkElem 0 10; mkElem (-1) (-1)];
               NumElements := 2; Capacity := 3 |} ∧
  (2 ∉ vertices {| Positions := [1; 0; -1];
                   Queue := [mkElem 1 9; mkElem 0 10; mkElem (-1) (-1)];
                   NumElements := 2; Capacity := 3 |}) ∧
  Push 2 8 {| Positions := [1; 0; -1];
              Queue := [mkElem 1 9; mkElem 0 10; mkElem (-1) (-1)];
              NumElements := 2; Capacity := 3 |} =
  Ok () {| Positions := [1; 2; 0];
           Queue := [mkElem 2 8; mkElem 0 10; mkElem 1 9];
           NumElements := 3; Capacity := 3 |} ∧
  bijection {| Positions := [1; 2; 0];
               Queue := [mkElem 2 8; mkElem 0 10; mkElem 1 9];
               NumElements := 3; Capacity := 3 |}.
Proof.
  assert (bijection {| Positions := [1; 0; -1];
               Queue := [mkElem 1 9; mkElem 0 10; mkElem (-1) (-1)];
               NumElements := 2; Capacity := 3 |}) as Hb.
  { apply (reachable_above_invariant _ reachable_above_two_pushes). }
  assert (2 ∉ vertices {| Positions := [1; 0; -1];
                  Queue := [mkElem 1 9; mkElem 0 10; mkElem (-1) (-1)];
                  NumElements := 2; Capacity := 3 |}) as Hv.
  { apply (bool_decide_unpack _). vm_compute. exact I. }
  split; [exact Hb|]. split; [exact Hv|]. split; [vm_compute; reflexivity|].
  apply (Push_fresh_keeps_bijection _ 2 8 _ Hb Hv). vm_compute. reflexivity.
Defined.

Lemma bijection_above_sentinel_witness :
  reachable_above {| Positions := [1; 0; -1];
                     Queue := [mkElem 1 9; mkElem 0 10; mkElem (-1) (-1)];
                     NumElements := 2; Capacity := 3 |} ∧
  bijection {| Positions := [1; 0; -1];
               Queue := [mkElem 1 9; mkElem 0 10; mkElem (-1) (-1)];
               NumElements := 2; Capacity := 3 |}.
Proof.
  split; [exact reachable_above_two_pushes|].
  exact (bijection_above_sentinel _ reachable_above_two_pushes).
Defined.

Lemma Push_throws_only_out_of_range_witness :
  reachable_above {| Positions := [1; 0; -1];
                     Queue := [mkElem 1 9; mkElem 0 10; mkElem (-1) (-1)];
                     NumElements := 2; Capacity := 3 |} ∧
  Push 3 8 {| Positions := [1; 0; -1];
              Queue := [mkElem 1 9; mkElem 0 10; mkElem (-1) (-1)];
              NumElements := 2; Capacity := 3 |} =
  Throw (logic_error "Invalid vertex passed to PQueue::Push, must be 0..N-1")
        {| Positions := [1; 0; -1];
           Queue := [mkElem 1 9; mkElem 0 10; mkElem (-1) (-1)];
           NumElements := 2; Capacity := 3 |} ∧
  ¬ (0 ≤ 3 < Capacity {| Positions := [1; 0; -1];
                         Queue := [mkElem 1 9; mkElem 0 10; mkElem (-1) (-1)];
                         NumElements := 2; Capacity := 3 |}) ∧
  {| Positions := [1; 0; -1];
     Queue := [mkElem 1 9; mkElem 0 10; mkElem (-1) (-1)];
     NumElements := 2; Capacity := 3 |} =
  {| Positions := [1; 0; -1];
     Queue := [mkElem 1 9; mkElem 0 10; mkElem (-1) (-1)];
     NumElements := 2; Capacity := 3 |}.
Proof.
  split; [exact reachable_above_two_pushes|].
  split; [vm_compute; reflexivity|].
  apply (Push_throws_only_out_of_range _ 3 8
           (logic_error "Invalid vertex passed to PQueue::Push, must be 0..N-1")
           {| Positions := [1; 0; -1];
              Queue := [mkElem 1 9; mkElem 0 10; mkElem (-1) (-1)];
              NumElements := 2; Capacity := 3 |}
           reachable_above_two_pushes).
  vm_compute. reflexivity.
Defined.
